(** * A prefix tree with ranked completion, correction and glob filtering

    Shallow embedding of [lab.py]: the [Trie] class, the two corpus builders'
    use of it, and the queries [autocomplete], [autocorrect] and
    [word_filter], followed by the properties the specification states
    about them. *)

From Stdlib Require Import List Ascii ZArith Arith Lia Bool.
From Stdlib Require Import Permutation Sorted FinFun.
Import ListNotations.

Local Open Scope list_scope.

(** ** Python values that occur as keys *)

(** A Python [str] is a sequence of characters. *)
Definition str := list ascii.

Definition str_eq_dec : forall a b : str, {a = b} + {a <> b} :=
  list_eq_dec ascii_dec.

(** [type(key)]: the two types [__setitem__] accepts, and any other one. *)
Inductive pytype := TStr | TTuple | TOther.

Definition pytype_eq_dec : forall a b : pytype, {a = b} + {a <> b}.
Proof. decide equality. Defined.

(** A key handed to the trie: a [str], a [tuple] of words, or an object of
    some other type, which the model takes not to be iterable (an [int]). *)
Inductive pykey :=
| KStr (s : str)
| KTuple (ws : list str)
| KOther.

Definition pykey_eq_dec : forall a b : pykey, {a = b} + {a <> b}.
Proof. decide equality; try apply str_eq_dec; apply (list_eq_dec str_eq_dec). Defined.

Definition type_of (key : pykey) : pytype :=
  match key with
  | KStr _ => TStr
  | KTuple _ => TTuple
  | KOther => TOther
  end.

(** A key of a [children] dict: the item [c] of a key (a one-character
    [str], or a word), or the one-element tuple [(c,)]. *)
Inductive atom :=
| AStr (c : str)
| ATup (c : str).

Definition atom_eq_dec : forall a b : atom, {a = b} + {a <> b}.
Proof. decide equality; apply str_eq_dec. Defined.

Arguments str_eq_dec : simpl never.
Arguments pytype_eq_dec : simpl never.
Arguments pykey_eq_dec : simpl never.
Arguments atom_eq_dec : simpl never.

(** ** Exceptions *)

Inductive exn := TypeError | KeyError.

Inductive res (A : Type) :=
| Ok (a : A)
| Raise (e : exn).

Arguments Ok {A} a.
Arguments Raise {A} e.

Definition bind {A B : Type} (m : res A) (k : A -> res B) : res B :=
  match m with
  | Ok a => k a
  | Raise e => Raise e
  end.

Notation "x <- m ;; k" := (bind m (fun x => k))
  (at level 61, m at next level, right associativity).

(** [for c in key]: the items of a key, in order. *)
Definition items (key : pykey) : res (list str) :=
  match key with
  | KStr s => Ok (map (fun c => [c]) s)
  | KTuple ws => Ok ws
  | KOther => Raise TypeError
  end.

(** [self.type()]: the empty key of a type. *)
Definition empty_of (ty : pytype) : pykey :=
  match ty with
  | TStr => KStr []
  | TTuple => KTuple []
  | TOther => KOther
  end.

(** [key + child] in [gen]. *)
Definition key_add (key : pykey) (child : atom) : res pykey :=
  match key, child with
  | KStr s, AStr c => Ok (KStr (s ++ c))
  | KTuple ws, ATup c => Ok (KTuple (ws ++ [c]))
  | _, _ => Raise TypeError
  end.

(** [prefix + key] in [find_completes_prefix]. *)
Definition key_concat (a b : pykey) : res pykey :=
  match a, b with
  | KStr s, KStr s' => Ok (KStr (s ++ s'))
  | KTuple ws, KTuple ws' => Ok (KTuple (ws ++ ws'))
  | _, _ => Raise TypeError
  end.

(** [if self.type is tuple: c = (c,)] *)
Definition wrap (ty : option pytype) (c : str) : atom :=
  match ty with
  | Some TTuple => ATup c
  | _ => AStr c
  end.

(** ** The trie *)

Section TrieClass.

Context {V : Type}.

(** [children] is a Python dict: an association list in insertion order. *)
#[warnings="-register-all"]
Inductive Trie : Type :=
  mkTrie (value : option V) (children : list (atom * Trie)) (type : option pytype).

Definition value (t : Trie) : option V :=
  match t with mkTrie v _ _ => v end.

Definition children (t : Trie) : list (atom * Trie) :=
  match t with mkTrie _ cs _ => cs end.

Definition type (t : Trie) : option pytype :=
  match t with mkTrie _ _ ty => ty end.

(** [Trie(trie_type, value)] *)
Definition Trie_init (trie_type : option pytype) (value : option V) : Trie :=
  mkTrie value [] trie_type.

Definition with_value (t : Trie) (v : option V) : Trie :=
  mkTrie v (children t) (type t).

Definition with_children (t : Trie) (cs : list (atom * Trie)) : Trie :=
  mkTrie (value t) cs (type t).

Definition with_type (t : Trie) (ty : option pytype) : Trie :=
  mkTrie (value t) (children t) ty.

(** [d[c]] / [c in d] *)
Fixpoint lookup (c : atom) (d : list (atom * Trie)) : option Trie :=
  match d with
  | [] => None
  | (k, t) :: d' => if atom_eq_dec k c then Some t else lookup c d'
  end.

(** [d.setdefault(c, fresh)] followed by the update of [d[c]] that the rest
    of the loop in [__setitem__] performs on it. *)
Fixpoint upsert (c : atom) (fresh : Trie) (f : Trie -> Trie)
    (d : list (atom * Trie)) : list (atom * Trie) :=
  match d with
  | [] => [(c, f fresh)]
  | (k, t) :: d' =>
      if atom_eq_dec k c then (k, f t) :: d' else (k, t) :: upsert c fresh f d'
  end.

(** The loop of [__setitem__], then [node.value = value]. *)
Fixpoint setitem_loop (self_type : option pytype) (key : list str)
    (value : option V) (node : Trie) : Trie :=
  match key with
  | [] => with_value node value
  | c :: key' =>
      let c := wrap self_type c in
      with_children node
        (upsert c (Trie_init self_type None)
           (setitem_loop self_type key' value) (children node))
  end.

Definition setitem (self : Trie) (key : pykey) (value : option V) : res Trie :=
  self <- match children self with
          | [] =>
              match type_of key with
              | TStr | TTuple => Ok (with_type self (Some (type_of key)))
              | TOther => Raise TypeError
              end
          | _ :: _ =>
              match type self with
              | Some ty =>
                  if pytype_eq_dec (type_of key) ty then Ok self
                  else Raise TypeError
              | None => Ok self
              end
          end ;;
  key <- items key ;;
  Ok (setitem_loop (type self) key value self).

(** The loop of [find] and its last test; [None] is Python's [False]. *)
Fixpoint find_loop (self_type : option pytype) (key : list str)
    (node : Trie) : option Trie :=
  match key with
  | [] =>
      match value node with
      | None => None
      | Some _ => Some node
      end
  | c :: key' =>
      let c := wrap self_type c in
      match lookup c (children node) with
      | None => None
      | Some node => find_loop self_type key' node
      end
  end.

Definition find (self : Trie) (key : pykey) : res (option Trie) :=
  key <- items key ;;
  Ok (find_loop (type self) key self).

Definition getitem (self : Trie) (key : pykey) : res (option V) :=
  match type self with
  | None => Raise TypeError
  | Some ty =>
      if pytype_eq_dec ty (type_of key) then
        node <- find self key ;;
        match node with
        | None => Raise KeyError
        | Some node => Ok (value node)
        end
      else Raise TypeError
  end.

Definition delitem (self : Trie) (key : pykey) : res Trie :=
  _ <- getitem self key ;;
  setitem self key None.

Definition contains (self : Trie) (key : pykey) : res bool :=
  node <- find self key ;;
  Ok (match node with None => false | Some _ => true end).

(** [gen(key, node)], with the generator run to its end. *)
Fixpoint gen (key : pykey) (node : Trie) {struct node} : res (list (pykey * V)) :=
  match node with
  | mkTrie value children _ =>
      let own := match value with
                 | Some v => [(key, v)]
                 | None => []
                 end in
      let fix each (cs : list (atom * Trie)) : res (list (pykey * V)) :=
        match cs with
        | [] => Ok []
        | (child, trie) :: cs' =>
            key' <- key_add key child ;;
            here <- gen key' trie ;;
            later <- each cs' ;;
            Ok (here ++ later)
        end in
      later <- each children ;;
      Ok (own ++ later)
  end.

Definition iter (self : Trie) : res (list (pykey * V)) :=
  match type self with
  | None => Ok []
  | Some ty => gen (empty_of ty) self
  end.

End TrieClass.

Arguments Trie : clear implicits.

(** ** Sequences, sorting and slicing *)

(** [l[:n]] for a list and a Python int. *)
Definition slice_to {A : Type} (n : Z) (l : list A) : list A :=
  if (n <? 0)%Z then firstn (Z.to_nat (Z.of_nat (length l) + n)) l
  else firstn (Z.to_nat n) l.

(** [l.sort(key=lambda tup: tup[1], reverse=True)]: Python's sort is stable,
    also when reversed, so its result is the one of any stable sort on the
    same key; here by insertion from the right. *)
Fixpoint insert_desc {A : Type} (x : A * Z) (l : list (A * Z)) : list (A * Z) :=
  match l with
  | [] => [x]
  | y :: l' => if (snd x <? snd y)%Z then y :: insert_desc x l' else x :: l
  end.

Definition sort_desc {A : Type} (l : list (A * Z)) : list (A * Z) :=
  fold_right insert_desc [] l.

(** A list comprehension whose body may raise. *)
Fixpoint map_res {A B : Type} (f : A -> res B) (l : list A) : res (list B) :=
  match l with
  | [] => Ok []
  | x :: l' => y <- f x ;; ys <- map_res f l' ;; Ok (y :: ys)
  end.

(** A list comprehension with a condition that may raise. *)
Fixpoint filter_res {A : Type} (f : A -> res bool) (l : list A) : res (list A) :=
  match l with
  | [] => Ok []
  | x :: l' =>
      b <- f x ;; ys <- filter_res f l' ;; Ok (if b then x :: ys else ys)
  end.

(** ** Corpus builders, over the tokenizer's output *)

(** [t[word] + 1] *)
Definition plus_one (v : option Z) : res (option Z) :=
  match v with
  | Some n => Ok (Some (n + 1)%Z)
  | None => Raise TypeError
  end.

(** The body shared by both builders: count one more occurrence of [key]. *)
Definition count_key (t : Trie Z) (key : pykey) : res (Trie Z) :=
  present <- contains t key ;;
  if present then
    old <- getitem t key ;;
    new <- plus_one old ;;
    setitem t key new
  else setitem t key (Some 1%Z).

Fixpoint count_keys (t : Trie Z) (keys : list pykey) : res (Trie Z) :=
  match keys with
  | [] => Ok t
  | key :: keys' => t' <- count_key t key ;; count_keys t' keys'
  end.

(** [make_word_trie], given [sentence.split()] for each sentence that
    [tokenize_sentences(text)] returns. *)
Definition make_word_trie (sentences : list (list str)) : res (Trie Z) :=
  count_keys (Trie_init None None) (map KStr (concat sentences)).

(** [make_phrase_trie], on the same input. *)
Definition make_phrase_trie (sentences : list (list str)) : res (Trie Z) :=
  count_keys (Trie_init None None) (map KTuple sentences).

(** ** Autocomplete *)

(** The loop of [find_completes_prefix]: [None] when it returns [[]]. *)
Fixpoint prefix_loop (prefix : list str) (trie : Trie Z) : option (Trie Z) :=
  match prefix with
  | [] => Some trie
  | c :: prefix' =>
      let c := wrap (type trie) c in
      match lookup c (children trie) with
      | None => None
      | Some trie => prefix_loop prefix' trie
      end
  end.

Definition find_completes_prefix (trie : Trie Z) (prefix : pykey)
    (max_count : option Z) : res (list (pykey * Z)) :=
  match type trie with
  | Some ty =>
      if pytype_eq_dec (type_of prefix) ty then
        cs <- items prefix ;;
        match prefix_loop cs trie with
        | None => Ok []
        | Some trie =>
            pairs <- iter trie ;;
            top_occuring <-
              map_res (fun kf => k <- key_concat prefix (fst kf) ;; Ok (k, snd kf))
                      pairs ;;
            let top_occuring := sort_desc top_occuring in
            match max_count with
            | None => Ok top_occuring
            | Some n => Ok (slice_to n top_occuring)
            end
        end
      else Raise TypeError
  | None => Raise TypeError
  end.

Definition autocomplete (trie : Trie Z) (prefix : pykey)
    (max_count : option Z) : res (list pykey) :=
  topword_and_freq <- find_completes_prefix trie prefix max_count ;;
  Ok (map fst topword_and_freq).

(** ** Autocorrect *)

(** ['abcdefghijklmnopqrstuvwxyz'] *)
Definition alphabet : str :=
  ["a"; "b"; "c"; "d"; "e"; "f"; "g"; "h"; "i";
   "j"; "k"; "l"; "m"; "n"; "o"; "p"; "q"; "r";
   "s"; "t"; "u"; "v"; "w"; "x"; "y"; "z"]%char.

(** [prefix[i]], a one-character [str]. *)
Definition char_at (prefix : str) (i : nat) : str :=
  [nth i prefix Ascii.zero].

(** The four loops that fill [edit_insert], [edit_delete], [edit_replace]
    and [edit_transpose], each listed in the order its elements are added. *)
Definition edit_insert (prefix : str) : list str :=
  flat_map (fun i => map (fun c => firstn i prefix ++ [c] ++ skipn i prefix) alphabet)
           (seq 0 (length prefix + 1)).

Definition edit_delete (prefix : str) : list str :=
  map (fun i => firstn i prefix ++ skipn (i + 1) prefix) (seq 0 (length prefix)).

Definition edit_replace (prefix : str) : list str :=
  flat_map (fun i => map (fun c => firstn i prefix ++ [c] ++ skipn (i + 1) prefix) alphabet)
           (seq 0 (length prefix)).

Definition edit_transpose (prefix : str) : list str :=
  flat_map (fun i =>
              if 0 <? i then
                [firstn (i - 1) prefix ++ char_at prefix i ++ char_at prefix (i - 1)
                   ++ skipn (i + 1) prefix]
              else [])
           (seq 0 (length prefix)).

(** [edit_insert | edit_delete | edit_replace | edit_transpose], as the
    elements put into the union. *)
Definition possible_edits (prefix : str) : list str :=
  edit_insert prefix ++ edit_delete prefix ++ edit_replace prefix
    ++ edit_transpose prefix.

(** The order in which Python walks a set is not part of the language; for
    strings it changes with the hash seed of the process.  An order is any
    function from the elements added to a duplicate-free list of them. *)
Definition set_order {A : Type} (f : list A -> list A) : Prop :=
  forall l, NoDup (f l) /\ forall x, In x (f l) <-> In x l.

(** One run of the interpreter: the order of [possible_edits.pop()], of the
    walk of [valid_edits] by [sorted], and of the walk of
    [completions | valid_edits]. *)
Record hash_seed : Type := mkSeed {
  pop_order : list str -> list str;
  sorted_order : list (pykey * Z) -> list (pykey * Z);
  union_order : list (pykey * Z) -> list (pykey * Z);
  pop_order_set : set_order pop_order;
  sorted_order_set : set_order sorted_order;
  union_order_set : set_order union_order
}.

Definition pair_eq_dec : forall a b : pykey * Z, {a = b} + {a <> b}.
Proof. decide equality; [apply Z.eq_dec | apply pykey_eq_dec]. Defined.

Arguments pair_eq_dec : simpl never.

(** The frequency in the pair [(edit, trie[edit])].  [trie[edit]] is never
    [None]: [find] only returns a node that has a value. *)
Definition freq_of (v : option Z) : res Z :=
  match v with
  | Some n => Ok n
  | None => Raise TypeError
  end.

(** One round of the [while] loop: the pair added to [valid_edits], if any. *)
Definition valid_edit (trie : Trie Z) (prefix : str)
    (completions : list (pykey * Z)) (edit : str) : res (option (pykey * Z)) :=
  if str_eq_dec edit prefix then Ok None
  else
    present <- contains trie (KStr edit) ;;
    if present then
      v <- getitem trie (KStr edit) ;;
      freq <- freq_of v ;;
      if in_dec pair_eq_dec (KStr edit, freq) completions then Ok None
      else Ok (Some (KStr edit, freq))
    else Ok None.

Fixpoint valid_loop (trie : Trie Z) (prefix : str)
    (completions : list (pykey * Z)) (popped : list str) : res (list (pykey * Z)) :=
  match popped with
  | [] => Ok []
  | edit :: popped' =>
      found <- valid_edit trie prefix completions edit ;;
      later <- valid_loop trie prefix completions popped' ;;
      Ok (match found with Some p => p :: later | None => later end)
  end.

(** [autocorrect], in the run [h].  The edits are built by
    [prefix[:i] + c + prefix[i:]], which raises for a prefix that is not a
    [str]; [len(completions)] in the slice is the size of the set. *)
Definition autocorrect (h : hash_seed) (trie : Trie Z) (prefix : pykey)
    (max_count : option Z) : res (list pykey) :=
  completions <- autocomplete trie prefix max_count ;;
  if match max_count with
     | Some n => (Z.of_nat (length completions) =? n)%Z
     | None => false
     end
  then Ok completions
  else
    match prefix with
    | KStr s =>
        let possible_edits := possible_edits s in
        completions <- find_completes_prefix trie prefix max_count ;;
        valid_edits <- valid_loop trie s completions (pop_order h possible_edits) ;;
        let valid_edits :=
          match max_count with
          | Some n =>
              slice_to (n - Z.of_nat (length (nodup pair_eq_dec completions)))
                       (sort_desc (sorted_order h valid_edits))
          | None => valid_edits
          end in
        Ok (map fst (union_order h (completions ++ valid_edits)))
    | _ => Raise TypeError
    end.

(** ** Wildcard filter *)

Definition star : ascii := "*"%char.
Definition qmark : ascii := "?"%char.

(** [set(pattern[p_index:]) == {'*'}] *)
Definition only_stars (rest : str) : bool :=
  match rest with
  | [] => false
  | _ :: _ => forallb (fun c => if ascii_dec c star then true else false) rest
  end.

(** [is_match]; each call either ends or moves one of the two indices
    forward, so [fuel] bounds the depth of the recursion. *)
Fixpoint is_match_rec (fuel : nat) (word : list str) (pattern : str)
    (w_index p_index : nat) : bool :=
  match fuel with
  | 0 => false
  | S fuel =>
      if length word <=? w_index then
        if length pattern <=? p_index then true
        else only_stars (skipn p_index pattern)
      else if length pattern <=? p_index then false
      else if negb (if ascii_dec (nth p_index pattern Ascii.zero) star then true else false) then
        let w := nth w_index word [] in
        let p := nth p_index pattern Ascii.zero in
        ((if ascii_dec p qmark then true else false)
         || (if str_eq_dec [p] w then true else false))
        && is_match_rec fuel word pattern (w_index + 1) (p_index + 1)
      else
        is_match_rec fuel word pattern w_index (p_index + 1)
        || is_match_rec fuel word pattern (w_index + 1) p_index
  end.

Definition is_match (word : pykey) (pattern : str) (w_index p_index : nat) : res bool :=
  word <- items word ;;
  Ok (is_match_rec (S (length word + length pattern)) word pattern w_index p_index).

Definition word_filter (trie : Trie Z) (pattern : str) : res (list (pykey * Z)) :=
  pairs <- iter trie ;;
  filter_res (fun kv => is_match (fst kv) pattern 0 0) pairs.

(** ** Tries built through the class, and what they have in common *)

Section Built.

Context {V : Type}.

(** The key types [__setitem__] accepts on a first insertion. *)
Definition supported (ty : pytype) : Prop := ty = TStr \/ ty = TTuple.

(** The tries a program can hold: [Trie()], changed by assignments
    [t[key] = value] and deletions [del t[key]] that did not raise. *)
Inductive reachable : Trie V -> Prop :=
| reach_init : reachable (Trie_init None None)
| reach_set t key value t' :
    reachable t -> setitem t key value = Ok t' -> reachable t'
| reach_del t key t' :
    reachable t -> delitem t key = Ok t' -> reachable t'.

(** The [str] inside a key of [children]. *)
Definition atom_str (a : atom) : str :=
  match a with
  | AStr c => c
  | ATup c => c
  end.

(** The keys of [children] that a trie of type [K] creates: one-character
    strings for [str], one-element tuples for [tuple]. *)
Definition atom_ok (K : pytype) (a : atom) : Prop :=
  match K, a with
  | TStr, AStr [_] => True
  | TTuple, ATup _ => True
  | _, _ => False
  end.

(** Every node has type [K], its dict has no key twice, and all keys are
    those of type [K]. *)
Fixpoint wf (K : pytype) (t : Trie V) : Prop :=
  match t with
  | mkTrie _ cs ty =>
      ty = Some K /\ NoDup (map fst cs) /\
      (fix all (cs : list (atom * Trie V)) : Prop :=
         match cs with
         | [] => True
         | (a, c) :: cs' => (atom_ok K a /\ wf K c) /\ all cs'
         end) cs
  end.

(** The node at the end of a path of dict keys. *)
Fixpoint walk (path : list atom) (node : Trie V) : option (Trie V) :=
  match path with
  | [] => Some node
  | c :: path' =>
      match lookup c (children node) with
      | None => None
      | Some node => walk path' node
      end
  end.

(** The paths of the nodes that have a value, in the order of [gen]. *)
Fixpoint gen_paths (node : Trie V) : list (list atom * V) :=
  match node with
  | mkTrie value children _ =>
      match value with
      | Some v => [([], v)]
      | None => []
      end
      ++ (fix each (cs : list (atom * Trie V)) : list (list atom * V) :=
            match cs with
            | [] => []
            | (child, trie) :: cs' =>
                map (fun pv => (child :: fst pv, snd pv)) (gen_paths trie) ++ each cs'
            end) children
  end.

(** [key] followed by the items on a path. *)
Definition key_app (key : pykey) (path : list atom) : pykey :=
  match key with
  | KStr s => KStr (s ++ concat (map atom_str path))
  | KTuple ws => KTuple (ws ++ map atom_str path)
  | KOther => KOther
  end.

(** The path [find] follows for a key in a trie of type [K]. *)
Definition path_of (K : pytype) (key : pykey) : list atom :=
  match items key with
  | Ok cs => map (wrap (Some K)) cs
  | Raise _ => []
  end.

End Built.

(** ** Sample data *)

Definition bat : str := ["b"; "a"; "t"]%char.
Definition bar : str := ["b"; "a"; "r"]%char.
Definition bark : str := ["b"; "a"; "r"; "k"]%char.

(** Two runs of the interpreter: one walks every set in the order its
    elements were added, the other in the opposite order. *)
Definition seed_forward : hash_seed.
Proof.
  refine (@mkSeed (nodup str_eq_dec) (nodup pair_eq_dec) (nodup pair_eq_dec) _ _ _);
    intro l; (split; [apply NoDup_nodup | intro x; apply nodup_In]).
Defined.

Definition seed_backward : hash_seed.
Proof.
  refine (@mkSeed (fun l => rev (nodup str_eq_dec l))
                  (fun l => rev (nodup pair_eq_dec l))
                  (fun l => rev (nodup pair_eq_dec l)) _ _ _);
    intro l;
    (split;
     [ apply NoDup_rev, NoDup_nodup
     | intro x; rewrite <- in_rev; apply nodup_In ]).
Defined.

(** ** Words of the specification *)

(** [p] is a prefix of [l]. *)
Fixpoint prefixb {A : Type} (dec : forall a b : A, {a = b} + {a <> b})
    (p l : list A) : bool :=
  match p, l with
  | [], _ => true
  | _ :: _, [] => false
  | x :: p', y :: l' => if dec x y then prefixb dec p' l' else false
  end.

(** The key starts with the prefix, both being of the same type. *)
Definition starts_with (prefix key : pykey) : bool :=
  match prefix, key with
  | KStr p, KStr k => prefixb ascii_dec p k
  | KTuple p, KTuple k => prefixb str_eq_dec p k
  | _, _ => false
  end.

(** Sorted by frequency, highest first. *)
Definition descending {A : Type} (l : list (A * Z)) : Prop :=
  StronglySorted (fun a b => (snd b <= snd a)%Z) l.

(** The entries of frequency [f], in the order of the list. *)
Definition with_freq {A : Type} (f : Z) (l : list (A * Z)) : list (A * Z) :=
  filter (fun p => (snd p =? f)%Z) l.

(** [l] when no count is given, else [l[:n]]. *)
Definition cut {A : Type} (max_count : option Z) (l : list A) : list A :=
  match max_count with
  | None => l
  | Some n => slice_to n l
  end.

(** [make_word_trie("bat bat bark bar")], the trie of the doctests. *)
Definition sample_trie : Trie Z :=
  match make_word_trie [[bat; bat; bark; bar]] with
  | Ok t => t
  | Raise _ => Trie_init None None
  end.

(** Glob matching of a pattern against the items of a word: [*] stands for
    any run of items, [?] for any one item, and any other character for
    the item that is this character. *)
Fixpoint glob (pattern : str) (word : list str) : Prop :=
  match pattern with
  | [] => word = []
  | p :: pattern' =>
      if ascii_dec p star then
        exists run rest, word = run ++ rest /\ glob pattern' rest
      else
        exists w rest, word = w :: rest /\ (p = qmark \/ w = [p]) /\ glob pattern' rest
  end.

(** The key matches the pattern. *)
Definition key_matches (pattern : str) (key : pykey) : Prop :=
  exists word, items key = Ok word /\ glob pattern word.

(** One of the 26 lowercase Latin letters, [a] (code 97) to [z] (122). *)
Definition lowercase (c : ascii) : Prop :=
  97 <= nat_of_ascii c <= 122.

(** The strings one edit away from [prefix]: a letter put in anywhere, a
    character left out, a character replaced by a letter, or two
    neighbours exchanged. *)
Inductive edit1 (prefix : str) : str -> Prop :=
| edit1_insert a b c :
    prefix = a ++ b -> lowercase c -> edit1 prefix (a ++ [c] ++ b)
| edit1_delete a x b :
    prefix = a ++ [x] ++ b -> edit1 prefix (a ++ b)
| edit1_replace a x b c :
    prefix = a ++ [x] ++ b -> lowercase c -> edit1 prefix (a ++ [c] ++ b)
| edit1_transpose a x y b :
    prefix = a ++ [x; y] ++ b -> edit1 prefix (a ++ [y; x] ++ b).

(** [s] with the characters at positions [j] and [j + 1] exchanged. *)
Definition swap_adjacent (j : nat) (s : str) : str :=
  firstn j s ++ [nth (j + 1) s Ascii.zero; nth j s Ascii.zero] ++ skipn (j + 2) s.

(** A valid edit of [prefix], with its frequency: one edit away and not the
    prefix itself, a key of the trie, and not one of the completions. *)
Definition valid_edit_of (t : Trie Z) (prefix : str)
    (completions : list (pykey * Z)) (kf : pykey * Z) : Prop :=
  exists edit,
    fst kf = KStr edit
    /\ edit1 prefix edit
    /\ edit <> prefix
    /\ getitem t (KStr edit) = Ok (Some (snd kf))
    /\ ~ In kf completions.

(** ** Histories of assignments and deletions *)

Section Histories.

Context {V : Type}.

(** [t[key] = value], with a value other than [None], and [del t[key]]. *)
Inductive op : Type :=
| OpSet (key : pykey) (value : V)
| OpDel (key : pykey).

Definition op_key (o : op) : pykey :=
  match o with
  | OpSet key _ => key
  | OpDel key => key
  end.

(** One operation; when it raises, the trie is as it was before. *)
Definition apply_op (t : Trie V) (o : op) : Trie V :=
  match
    match o with
    | OpSet key value => setitem t key (Some value)
    | OpDel key => delitem t key
    end
  with
  | Ok t' => t'
  | Raise _ => t
  end.

(** The trie after a history that starts from [Trie()]. *)
Definition run (ops : list op) : Trie V :=
  fold_left apply_op ops (Trie_init None None).

(** What a history leaves for a key: the value last assigned to it, unless
    it was deleted afterwards. *)
Definition step_latest (key : pykey) (acc : option V) (o : op) : option V :=
  match o with
  | OpSet k v => if pykey_eq_dec k key then Some v else acc
  | OpDel k => if pykey_eq_dec k key then None else acc
  end.

Definition latest (ops : list op) (key : pykey) : option V :=
  fold_left (step_latest key) ops None.

(** The value stored at the end of a path, if the path exists. *)
Definition value_at (path : list atom) (node : Trie V) : option V :=
  match walk path node with
  | Some n => value n
  | None => None
  end.

(** The value [t[key]] gives, if it gives one. *)
Definition stored (t : Trie V) (key : pykey) : option V :=
  match getitem t key with
  | Ok (Some v) => Some v
  | _ => None
  end.

(** The tries of a history with keys of one type [K]. *)
Definition of_type (K : pytype) (t : Trie V) : Prop :=
  t = Trie_init None None \/ wf K t.

(** The keys of the dict at the end of a path, in the order of the dict. *)
Definition keys_at (path : list atom) (t : Trie V) : list atom :=
  match walk path t with
  | Some n => map fst (children n)
  | None => []
  end.

(** The step that follows [path] on the way along [full], if any. *)
Fixpoint child_after (path full : list atom) : option atom :=
  match path, full with
  | [], a :: _ => Some a
  | [], [] => None
  | _ :: _, [] => None
  | x :: path', y :: full' =>
      if atom_eq_dec x y then child_after path' full' else None
  end.

(** The steps taken from the end of [path] by the assignments of a
    history, in the order in which they were first taken. *)
Definition step_atoms (K : pytype) (path : list atom) (acc : list atom) (o : op)
    : list atom :=
  match o with
  | OpSet key _ =>
      match child_after path (path_of K key) with
      | Some a => if in_dec atom_eq_dec a acc then acc else acc ++ [a]
      | None => acc
      end
  | OpDel _ => acc
  end.

Definition first_atoms (K : pytype) (ops : list op) (path : list atom) : list atom :=
  fold_left (step_atoms K path) ops [].

End Histories.

Arguments op : clear implicits.

(** [a] stands before [b] in the list. *)
Definition before_in {A : Type} (l : list A) (a b : A) : Prop :=
  exists l1 l2 l3, l = l1 ++ a :: l2 ++ b :: l3.

(** Depth-first order of two paths, given the order of the steps from each
    path: a path comes before the paths that continue it, and where two
    paths part, the one whose step comes first is first. *)
Inductive path_before (steps : list atom -> list atom) : list atom -> list atom -> Prop :=
| before_descendant p a r :
    path_before steps p (p ++ a :: r)
| before_sibling p a r1 b r2 :
    before_in (steps p) a b ->
    path_before steps (p ++ a :: r1) (p ++ b :: r2).

(** The sample trie after [t['bar'] = 5]. *)
Definition sample_after_set : Trie Z :=
  match setitem sample_trie (KStr bar) (Some 5%Z) with
  | Ok t => t
  | Raise _ => sample_trie
  end.

(** A history on strings: [t['bat'] = 1; t['bar'] = 2; del t['bat']]. *)
Definition sample_history : list (op Z) :=
  [OpSet (KStr bat) 1%Z; OpSet (KStr bar) 2%Z; OpDel (KStr bat)].

(** The empty string or the empty tuple. *)
Definition is_empty_key (key : pykey) : bool :=
  match key with
  | KStr [] => true
  | KTuple [] => true
  | _ => false
  end.

(** A pattern without [*] and [?]. *)
Definition plain (pattern : str) : Prop :=
  ~ In star pattern /\ ~ In qmark pattern.

(** [make_phrase_trie] of a text with the sentences "bat bar", "bat bar"
    and "bark". *)
Definition sample_phrase_trie : Trie Z :=
  match make_phrase_trie [[bat; bar]; [bat; bar]; [bark]] with
  | Ok t => t
  | Raise _ => Trie_init None None
  end.

(** * Properties *)

(** ** The monad *)

Lemma bind_Ok_inv {A B : Type} (m : res A) (k : A -> res B) (b : B) :
  bind m k = Ok b -> exists a, m = Ok a /\ k a = Ok b.
Proof. destruct m as [a|e]; simpl; [eauto | discriminate]. Qed.

Ltac inv_bind H :=
  let x := fresh "x" in
  let Hx := fresh "Hx" in
  apply bind_Ok_inv in H; destruct H as (x & Hx & H).

(** ** Dictionaries *)

Section DictFacts.

Context {V : Type}.
Implicit Types (d : list (atom * Trie V)) (t : Trie V).

Lemma lookup_upsert_same c fresh f d :
  lookup c (upsert c fresh f d)
  = Some (f (match lookup c d with Some t => t | None => fresh end)).
Proof.
  induction d as [|[k t] d IH]; simpl.
  - destruct (atom_eq_dec c c); congruence.
  - destruct (atom_eq_dec k c) as [E|N]; simpl.
    + destruct (atom_eq_dec k c); congruence.
    + destruct (atom_eq_dec k c); [contradiction | exact IH].
Qed.

Lemma lookup_upsert_other c c' fresh f d :
  c <> c' -> lookup c' (upsert c fresh f d) = lookup c' d.
Proof.
  intros N. induction d as [|[k t] d IH]; simpl.
  - destruct (atom_eq_dec c c'); congruence.
  - destruct (atom_eq_dec k c) as [E|N']; simpl.
    + subst k. destruct (atom_eq_dec c c'); congruence.
    + destruct (atom_eq_dec k c'); [reflexivity | exact IH].
Qed.

Lemma lookup_In c d t : lookup c d = Some t -> In (c, t) d.
Proof.
  induction d as [|[k t'] d IH]; simpl; [discriminate|].
  destruct (atom_eq_dec k c) as [E|N]; intros H.
  - inversion H; subst. now left.
  - right. now apply IH.
Qed.

Lemma lookup_None c d : lookup c d = None <-> ~ In c (map fst d).
Proof.
  induction d as [|[k t'] d IH]; simpl.
  - tauto.
  - destruct (atom_eq_dec k c) as [E|N]; split; intros H.
    + discriminate.
    + exfalso. apply H. now left.
    + intros [E|I]; [contradiction | now apply IH in H].
    + apply IH. intros I. apply H. now right.
Qed.

Lemma In_lookup c d t : NoDup (map fst d) -> In (c, t) d -> lookup c d = Some t.
Proof.
  induction d as [|[k t'] d IH]; simpl; [tauto|].
  intros ND [E|I].
  - inversion E; subst. destruct (atom_eq_dec c c); congruence.
  - inversion ND as [|? ? NI ND']; subst.
    destruct (atom_eq_dec k c) as [E|N].
    + subst k. exfalso. apply NI. now apply (in_map fst) in I.
    + now apply IH.
Qed.

(** Keys after [upsert]: the old ones in their order, then [c] if new. *)
Lemma upsert_keys c fresh f d :
  map fst (upsert c fresh f d)
  = match lookup c d with
    | Some _ => map fst d
    | None => map fst d ++ [c]
    end.
Proof.
  induction d as [|[k t] d IH]; simpl; [reflexivity|].
  destruct (atom_eq_dec k c) as [E|N]; simpl; [reflexivity|].
  rewrite IH. now destruct (lookup c d).
Qed.

Lemma upsert_NoDup c fresh f d :
  NoDup (map fst d) -> NoDup (map fst (upsert c fresh f d)).
Proof.
  intros ND. rewrite upsert_keys.
  destruct (lookup c d) eqn:L; [assumption|].
  apply lookup_None in L.
  apply NoDup_app; [assumption | repeat constructor; simpl; tauto |].
  intros x I [E|[]]. subst. contradiction.
Qed.

Lemma upsert_Forall (P : atom * Trie V -> Prop) c fresh f d :
  Forall P d ->
  (forall t, In (c, t) d -> P (c, t) -> P (c, f t)) ->
  P (c, f fresh) ->
  Forall P (upsert c fresh f d).
Proof.
  intros F Hold Hnew.
  induction d as [|[k t] d IH]; simpl.
  - now repeat constructor.
  - inversion F as [|? ? Hk F']; subst.
    destruct (atom_eq_dec k c) as [E|N].
    + subst k. constructor; [|assumption]. apply Hold; [now left | assumption].
    + constructor; [assumption|]. apply IH; [assumption|].
      intros t' I. apply Hold. now right.
Qed.

End DictFacts.

(** ** The shape of a trie *)

Section TrieFacts.

Context {V : Type}.
Implicit Types (t node : Trie V) (cs : list (atom * Trie V)).

Lemma Trie_nested_ind (P : Trie V -> Prop) :
  (forall v cs ty, Forall (fun kt => P (snd kt)) cs -> P (mkTrie v cs ty)) ->
  forall t, P t.
Proof.
  intros H. fix IH 1. intros [v cs ty]. apply H.
  induction cs as [|[a c] cs IHcs]; constructor; [apply IH | exact IHcs].
Qed.

Lemma wf_unfold K v cs ty :
  wf K (mkTrie v cs ty) <->
  ty = Some K /\ NoDup (map fst cs) /\
  Forall (fun kt => atom_ok K (fst kt) /\ wf K (snd kt)) cs.
Proof.
  simpl. split; intros (Hty & ND & F); (split; [|split]); try assumption.
  - clear ND. induction cs as [|[a c] cs IH]; constructor.
    + exact (proj1 F).
    + exact (IH (proj2 F)).
  - clear ND. induction F as [|[a c] cs Hx F IH]; [exact I | split; assumption].
Qed.

Local Arguments wf : simpl never.

Lemma wf_type K t : wf K t -> type t = Some K.
Proof. destruct t as [v cs ty]. rewrite wf_unfold. simpl. tauto. Qed.

Lemma wf_children K t :
  wf K t ->
  NoDup (map fst (children t)) /\
  Forall (fun kt => atom_ok K (fst kt) /\ wf K (snd kt)) (children t).
Proof. destruct t as [v cs ty]. rewrite wf_unfold. simpl. tauto. Qed.

Lemma wf_lookup K t c child :
  wf K t -> lookup c (children t) = Some child -> atom_ok K c /\ wf K child.
Proof.
  intros W L. apply wf_children in W. destruct W as [_ F].
  apply lookup_In in L. rewrite Forall_forall in F. exact (F _ L).
Qed.

Lemma gen_paths_unfold v cs ty :
  gen_paths (mkTrie v cs ty)
  = match v with Some x => [([], x)] | None => [] end
    ++ flat_map (fun kt => map (fun pv => (fst kt :: fst pv, snd pv))
                               (gen_paths (snd kt))) cs.
Proof.
  simpl. f_equal. induction cs as [|[a c] cs IH]; simpl; [reflexivity|].
  now rewrite IH.
Qed.

Lemma setitem_loop_type ty key v node :
  type (setitem_loop ty key v node) = type node.
Proof. destruct key; reflexivity. Qed.

Lemma wf_fresh K : wf K (Trie_init (V:=V) (Some K) None).
Proof. apply wf_unfold. repeat split; constructor. Qed.

Lemma setitem_loop_wf K key v node :
  wf K node ->
  Forall (fun c => atom_ok K (wrap (Some K) c)) key ->
  wf K (setitem_loop (Some K) key v node).
Proof.
  revert node. induction key as [|c key IH]; intros [x cs ty] W F.
  - apply wf_unfold in W. apply wf_unfold. exact W.
  - inversion F as [|? ? Hc F']; subst.
    apply wf_unfold in W. destruct W as (Hty & ND & Fcs).
    simpl. unfold with_children. simpl. apply wf_unfold.
    split; [assumption|]. split; [now apply upsert_NoDup|].
    apply upsert_Forall; simpl.
    + assumption.
    + intros t _ [Ha Wt]. split; [assumption | now apply IH].
    + split; [assumption|]. apply IH; [apply wf_fresh | assumption].
Qed.

Lemma items_atoms_ok key :
  supported (type_of key) ->
  exists ks, items key = Ok ks /\
             Forall (fun c => atom_ok (type_of key) (wrap (Some (type_of key)) c)) ks.
Proof.
  destruct key as [s|ws|]; simpl; intros [E|E]; try discriminate.
  - eexists; split; [reflexivity|]. apply Forall_forall.
    intros c I. apply in_map_iff in I. destruct I as (a & <- & _). exact I.
  - eexists; split; [reflexivity|]. apply Forall_forall. intros c _. exact I.
Qed.

(** What [__setitem__] leaves behind is a trie of the key's type. *)
Lemma setitem_wf t key v t' :
  (children t = [] \/ exists K, wf K t) ->
  setitem t key v = Ok t' ->
  supported (type_of key) /\ wf (type_of key) t'.
Proof.
  intros Ht H. unfold setitem in H.
  assert (exists self, supported (type_of key) /\ wf (type_of key) self /\
            (self <- Ok self ;;
             key0 <- items key ;;
             Ok (setitem_loop (type self) key0 v self)) = Ok t')
    as (self & Sup & W & H').
  { destruct t as [x cs ty]. simpl in *. destruct cs as [|kc cs].
    - assert (Sup : supported (type_of key))
        by (destruct key; simpl in *; try discriminate; [now left | now right]).
      exists (mkTrie x [] (Some (type_of key))).
      split; [assumption|]. split.
      + apply wf_unfold. repeat split; constructor.
      + destruct key; simpl in *; try discriminate; exact H.
    - destruct Ht as [Ht|(K & W)]; [discriminate|].
      pose proof (wf_type _ _ W) as Hty. simpl in Hty. subst ty.
      destruct (pytype_eq_dec (type_of key) K) as [E|N]; [|discriminate].
      subst K. exists (mkTrie x (kc :: cs) (Some (type_of key))).
      split; [|split; assumption].
      destruct key; simpl in *; [now left | now right |].
      simpl in H. discriminate. }
  simpl in H'. split; [assumption|].
  destruct (items_atoms_ok key Sup) as (ks & Hks & F).
  rewrite Hks in H'. simpl in H'. inversion H'; subst.
  rewrite (wf_type _ _ W). now apply setitem_loop_wf.
Qed.

Lemma delitem_inv t key t' :
  delitem t key = Ok t' -> setitem t key None = Ok t'.
Proof. unfold delitem. intros H. inv_bind H. exact H. Qed.

(** Every trie a program can hold is [Trie()] or well formed for one of
    the two key types. *)
Lemma reachable_wf t :
  reachable t ->
  t = Trie_init None None \/ exists K, supported K /\ wf K t.
Proof.
  induction 1 as [|t key v t' R IH H|t key t' R IH H].
  - now left.
  - right. exists (type_of key). eapply setitem_wf; [|exact H].
    destruct IH as [->|(K & _ & W)]; [now left | right; eauto].
  - right. exists (type_of key). apply delitem_inv in H.
    eapply setitem_wf; [|exact H].
    destruct IH as [->|(K & _ & W)]; [now left | right; eauto].
Qed.

End TrieFacts.

(** ** Assignment, lookup and the type lock *)

Section SetGet.

Context {V : Type}.
Implicit Types (t node : Trie V).

Lemma find_loop_setitem_loop ty ks (v : V) node :
  exists n, find_loop ty ks (setitem_loop ty ks (Some v) node) = Some n
            /\ value n = Some v.
Proof.
  revert node. induction ks as [|c ks IH]; intros node; simpl.
  - exists (with_value node (Some v)). now split.
  - rewrite lookup_upsert_same. apply IH.
Qed.

(** C3: after [t[k] = v], with [k] of the type the trie is locked to (or
    of either key type when the trie has no child yet), [t[k]] is [v] and
    [k in t] is true. *)
Theorem set_get_round_trip t (key : pykey) (v : V) :
  supported (type_of key) ->
  type t = Some (type_of key) \/ children t = [] ->
  exists t', setitem t key (Some v) = Ok t'
             /\ getitem t' key = Ok (Some v)
             /\ contains t' key = Ok true.
Proof.
  intros Sup Ht.
  assert (exists ks, items key = Ok ks) as (ks & Hks)
    by (destruct (items_atoms_ok key Sup) as (ks & Hks & _); eauto).
  assert (exists self, type self = Some (type_of key) /\
            setitem t key (Some v)
            = Ok (setitem_loop (type self) ks (Some v) self))
    as (self & Hty & Hset).
  { destruct t as [x cs ty]. unfold setitem. simpl in *.
    destruct cs as [|kc cs].
    - exists (mkTrie x [] (Some (type_of key))). split; [reflexivity|].
      destruct Sup as [E|E]; rewrite E in *; simpl; now rewrite Hks.
    - destruct Ht as [->|Ht]; [|discriminate].
      exists (mkTrie x (kc :: cs) (Some (type_of key))). split; [reflexivity|].
      destruct (pytype_eq_dec (type_of key) (type_of key)); [|contradiction].
      simpl. now rewrite Hks. }
  rewrite Hty in Hset.
  eexists. split; [exact Hset|].
  destruct (find_loop_setitem_loop (Some (type_of key)) ks v self)
    as (n & Hn & Hv).
  unfold getitem, contains, find.
  rewrite setitem_loop_type, Hty, Hks. simpl. rewrite Hn.
  destruct (pytype_eq_dec (type_of key) (type_of key)); [|contradiction].
  simpl. now rewrite Hv.
Qed.

(** Where the lock of [__setitem__] holds: once the root has a child, a
    key of another type raises. *)
Lemma setitem_locked t key v K :
  children t <> [] -> type t = Some K -> type_of key <> K ->
  setitem t key v = Raise TypeError.
Proof.
  destruct t as [x cs ty]. simpl. intros Hcs -> N. unfold setitem. simpl.
  destruct cs; [contradiction|].
  destruct (pytype_eq_dec (type_of key) K); [contradiction | reflexivity].
Qed.

End SetGet.

Lemma set_get_round_trip_fresh :
  exists t', setitem (Trie_init None None) (KStr bat) (Some 1%Z) = Ok t'
             /\ getitem t' (KStr bat) = Ok (Some 1%Z)
             /\ contains t' (KStr bat) = Ok true.
Proof.
  apply (set_get_round_trip (Trie_init None None) (KStr bat) 1%Z).
  - left. reflexivity.
  - right. reflexivity.
Defined.

(** C2: [t = Trie(); t[''] = 1; t[('bat',)] = 2].  The second assignment
    does not raise: the root still has no child, so its type is set anew
    and the trie is now one of tuples, with the value of [''] at its root. *)
Example type_lock_lost_after_empty_key :
  (t <- setitem (Trie_init None None) (KStr []) (Some 1%Z) ;;
   setitem t (KTuple [bat]) (Some 2%Z))
  = Ok (mkTrie (Some 1%Z)
               [(ATup bat, mkTrie (Some 2%Z) [] (Some TTuple))]
               (Some TTuple)).
Proof. reflexivity. Qed.

(** C10: on a trie that has no type yet, [autocomplete] and [autocorrect]
    raise [TypeError] for every prefix, the empty string included. *)
Theorem untyped_trie_queries_raise (h : hash_seed) (t : Trie Z)
    (prefix : pykey) (max_count : option Z) :
  type t = None ->
  autocomplete t prefix max_count = Raise TypeError
  /\ autocorrect h t prefix max_count = Raise TypeError.
Proof.
  intros Hty.
  assert (A : autocomplete t prefix max_count = Raise TypeError).
  { unfold autocomplete, find_completes_prefix. now rewrite Hty. }
  split; [exact A|]. unfold autocorrect. now rewrite A.
Qed.

Lemma untyped_trie_queries_raise_fresh :
  autocomplete (Trie_init None None) (KStr []) None = Raise TypeError
  /\ autocorrect seed_forward (Trie_init None None) (KStr []) None = Raise TypeError.
Proof.
  apply (untyped_trie_queries_raise seed_forward (Trie_init None None) (KStr []) None).
  reflexivity.
Defined.

(** ** Iteration *)

Section IterFacts.

Context {V : Type}.
Implicit Types (t node : Trie V) (cs : list (atom * Trie V)).

Local Arguments wf : simpl never.

Lemma key_add_ok K key a :
  type_of key = K -> atom_ok K a ->
  key_add key a = Ok (key_app key [a]) /\ type_of (key_app key [a]) = K.
Proof.
  intros <-. destruct key as [s|ws|], a as [c|c]; simpl; try contradiction.
  - destruct c as [|x [|y c]]; try contradiction. intros _. simpl.
    now split.
  - now intros _.
Qed.

Lemma key_app_app key p q : key_app (key_app key p) q = key_app key (p ++ q).
Proof.
  destruct key; simpl; [| |reflexivity].
  - now rewrite map_app, concat_app, app_assoc.
  - now rewrite map_app, app_assoc.
Qed.

Lemma key_app_nil key : key_app key [] = key.
Proof. destruct key; simpl; now rewrite ?app_nil_r. Qed.

(** On a well-formed trie the generator does not raise, and yields the
    keys of the paths of [gen_paths], in that order. *)
Lemma gen_wf K node :
  wf K node -> forall key, type_of key = K ->
  gen key node
  = Ok (map (fun pv => (key_app key (fst pv), snd pv)) (gen_paths node)).
Proof.
  induction node as [v cs ty IH] using Trie_nested_ind.
  intros W key Hk. apply wf_unfold in W. destruct W as (_ & _ & F).
  rewrite gen_paths_unfold. simpl gen.
  match goal with |- bind (?f cs) _ = _ => set (each := f) end.
  assert (E : each cs
              = Ok (map (fun pv => (key_app key (fst pv), snd pv))
                      (flat_map (fun kt => map (fun pv => (fst kt :: fst pv, snd pv))
                                               (gen_paths (snd kt))) cs))).
  { clear v. induction cs as [|[a c] cs IHcs]; [reflexivity|].
    inversion IH as [|? ? IHc IH']; subst.
    inversion F as [|? ? [Ha Wc] F']; subst. simpl in *.
    destruct (key_add_ok _ key a eq_refl Ha) as [-> Hk'].
    simpl. rewrite (IHc Wc _ Hk'). simpl.
    rewrite (IHcs IH' F'). simpl. f_equal.
    rewrite map_app, !map_map. f_equal.
    apply map_ext. intros [p x]. simpl. now rewrite key_app_app. }
  rewrite E. simpl. rewrite map_app. f_equal. f_equal.
  destruct v; simpl; [|reflexivity]. now rewrite key_app_nil.
Qed.

Lemma iter_wf K t :
  wf K t ->
  iter t = Ok (map (fun pv => (key_app (empty_of K) (fst pv), snd pv)) (gen_paths t)).
Proof.
  intros W. unfold iter. rewrite (wf_type _ _ W).
  apply gen_wf with (K := K); [assumption|]. now destruct K.
Qed.

(** The paths of [gen_paths] are the paths to the nodes with a value. *)
Lemma gen_paths_walk K node :
  wf K node -> forall p v,
  In (p, v) (gen_paths node) <->
  exists n, walk p node = Some n /\ value n = Some v.
Proof.
  induction node as [x cs ty IH] using Trie_nested_ind.
  intros W p v. apply wf_unfold in W. destruct W as (_ & ND & F).
  rewrite gen_paths_unfold, in_app_iff, in_flat_map. split.
  - intros [H|((a, c) & Ic & H)].
    + destruct x; [|contradiction]. destruct H as [H|[]].
      inversion H; subst. eexists. split; reflexivity.
    + apply in_map_iff in H. destruct H as ((q, y) & E & Iq).
      simpl in E. inversion E; subst.
      rewrite Forall_forall in IH, F.
      apply (IH _ Ic (proj2 (F _ Ic))) in Iq.
      simpl. now rewrite (In_lookup _ _ _ ND Ic).
  - intros (n & Hw & Hv). destruct p as [|a p]; simpl in Hw.
    + inversion Hw; subst. simpl in Hv. subst x. left. now left.
    + right. destruct (lookup a cs) as [c|] eqn:L; [|discriminate].
      apply lookup_In in L. exists (a, c). split; [assumption|].
      apply in_map_iff. exists (p, v). split; [reflexivity|].
      rewrite Forall_forall in IH, F.
      apply (IH _ L (proj2 (F _ L))). eauto.
Qed.

Lemma gen_paths_atoms K node :
  wf K node -> forall p v, In (p, v) (gen_paths node) -> Forall (atom_ok K) p.
Proof.
  induction node as [x cs ty IH] using Trie_nested_ind.
  intros W p v. apply wf_unfold in W. destruct W as (_ & _ & F).
  rewrite gen_paths_unfold, in_app_iff, in_flat_map.
  intros [H|((a, c) & Ic & H)].
  - destruct x; [|contradiction]. destruct H as [H|[]]. inversion H. constructor.
  - apply in_map_iff in H. destruct H as ((q, y) & E & Iq).
    simpl in E. inversion E; subst.
    rewrite Forall_forall in IH, F. destruct (F _ Ic) as [Ha Wc].
    constructor; [assumption|]. exact (IH _ Ic Wc _ _ Iq).
Qed.

Lemma gen_paths_NoDup K node : wf K node -> NoDup (map fst (gen_paths node)).
Proof.
  induction node as [x cs ty IH] using Trie_nested_ind.
  intros W. apply wf_unfold in W. destruct W as (_ & ND & F).
  rewrite gen_paths_unfold, map_app.
  assert (Hcs : NoDup (map fst (flat_map
                 (fun kt => map (fun pv => (fst kt :: fst pv, snd pv))
                                (gen_paths (snd kt))) cs))
                /\ forall p, In p (map fst (flat_map
                     (fun kt => map (fun pv => (fst kt :: fst pv, snd pv))
                                    (gen_paths (snd kt))) cs)) ->
                   exists a q, p = a :: q /\ In a (map fst cs)).
  { clear x. induction cs as [|[a c] cs IHcs]; simpl.
    - split; [constructor | intros p []].
    - inversion IH as [|? ? IHc IH']; subst.
      inversion F as [|? ? [Ha Wc] F']; subst.
      inversion ND as [|? ? NI ND']; subst. simpl in *.
      destruct (IHcs IH' ND' F') as [NDr Hr].
      rewrite map_app, map_map. simpl. split.
      + apply NoDup_app.
        * rewrite <- (map_map fst (cons a)).
          apply Injective_map_NoDup; [|now apply IHc].
          intros p q E. now inversion E.
        * assumption.
        * intros p I1 I2. apply Hr in I2. destruct I2 as (b & q & -> & Ib).
          apply in_map_iff in I1. destruct I1 as (pv & E & _).
          inversion E; subst. contradiction.
      + intros p I. apply in_app_iff in I. destruct I as [I|I].
        * apply in_map_iff in I. destruct I as (pv & <- & _). eauto.
        * apply Hr in I. destruct I as (b & q & -> & Ib). eauto. }
  destruct Hcs as [NDr Hr]. apply NoDup_app; [| assumption |].
  - destruct x; simpl; repeat constructor. simpl. tauto.
  - intros p I1 I2. apply Hr in I2. destruct I2 as (b & q & -> & _).
    destruct x; simpl in I1; [|contradiction]. destruct I1 as [E|[]]. discriminate.
Qed.

End IterFacts.

(** ** Keys and paths *)

Lemma concat_map_singleton {A : Type} (l : list A) :
  concat (map (fun c => [c]) l) = l.
Proof. induction l; simpl; congruence. Qed.

Lemma path_of_key K key :
  supported K -> type_of key = K ->
  key_app (empty_of K) (path_of K key) = key
  /\ Forall (atom_ok K) (path_of K key)
  /\ items key = Ok (map atom_str (path_of K key)).
Proof.
  intros Sup <-. destruct key as [s|ws|]; unfold path_of; simpl.
  - rewrite !map_map. simpl.
    split; [f_equal; apply concat_map_singleton|]. split.
    + apply Forall_forall. intros a I. apply in_map_iff in I.
      now destruct I as (c & <- & _).
    + reflexivity.
  - rewrite map_map. simpl. rewrite map_id.
    split; [reflexivity|]. split; [|reflexivity].
    apply Forall_forall. intros a I. apply in_map_iff in I.
    now destruct I as (c & <- & _).
  - destruct Sup; discriminate.
Qed.

Lemma key_of_path K p :
  supported K -> Forall (atom_ok K) p ->
  path_of K (key_app (empty_of K) p) = p
  /\ type_of (key_app (empty_of K) p) = K.
Proof.
  intros [-> | ->] F; unfold path_of; simpl; (split; [|reflexivity]).
  - induction F as [|a p Ha F IH]; [reflexivity|].
    destruct a as [c|c]; [|contradiction].
    destruct c as [|x [|y c]]; try contradiction.
    simpl. now rewrite IH.
  - induction F as [|a p Ha F IH]; [reflexivity|].
    destruct a as [c|c]; [contradiction|]. simpl. now rewrite IH.
Qed.

Lemma wrap_atom_str K p :
  supported K -> Forall (atom_ok K) p ->
  map (wrap (Some K)) (map atom_str p) = p.
Proof.
  intros [-> | ->] F; induction F as [|a p Ha F IH]; simpl; try reflexivity.
  - destruct a as [c|c]; [|contradiction]. simpl. now rewrite IH.
  - destruct a as [c|c]; [contradiction|]. simpl. now rewrite IH.
Qed.

Lemma key_app_inj K p q :
  supported K -> Forall (atom_ok K) p -> Forall (atom_ok K) q ->
  key_app (empty_of K) p = key_app (empty_of K) q -> p = q.
Proof.
  intros Sup Fp Fq E.
  rewrite <- (proj1 (key_of_path K p Sup Fp)), <- (proj1 (key_of_path K q Sup Fq)).
  now rewrite E.
Qed.

Section GetFacts.

Context {V : Type}.
Implicit Types (t node : Trie V).

Lemma find_loop_walk ty ks node :
  find_loop ty ks node
  = match walk (map (wrap ty) ks) node with
    | Some n => match value n with Some _ => Some n | None => None end
    | None => None
    end.
Proof.
  revert node. induction ks as [|c ks IH]; intros node; simpl; [reflexivity|].
  destruct (lookup (wrap ty c) (children node)); [apply IH | reflexivity].
Qed.

(** [t[key]] never is [None]. *)
Lemma getitem_Some t key x :
  getitem t key = Ok x -> exists v, x = Some v.
Proof.
  unfold getitem, find. destruct (type t) as [ty|]; [|discriminate].
  destruct (pytype_eq_dec ty (type_of key)); [|discriminate].
  destruct (items key) as [ks|]; [|discriminate]. simpl.
  rewrite find_loop_walk.
  destruct (walk (map (wrap (Some ty)) ks) t) as [n|]; [|discriminate].
  destruct (value n) as [v|] eqn:E; [|discriminate].
  intros H. inversion H. rewrite E. eauto.
Qed.

Lemma getitem_type t key x :
  getitem t key = Ok x -> type t = Some (type_of key).
Proof.
  unfold getitem. destruct (type t) as [ty|]; [|discriminate].
  destruct (pytype_eq_dec ty (type_of key)); [congruence | discriminate].
Qed.

Lemma getitem_walk K t key v :
  supported K -> type t = Some K -> type_of key = K ->
  getitem t key = Ok (Some v) <->
  exists n, walk (path_of K key) t = Some n /\ value n = Some v.
Proof.
  intros Sup Ht Hk. unfold getitem, find, path_of. rewrite Ht.
  destruct (pytype_eq_dec K (type_of key)); [|congruence].
  destruct (path_of_key K key Sup Hk) as (_ & _ & ->). simpl.
  rewrite find_loop_walk.
  destruct (walk _ t) as [n|]; simpl.
  - destruct (value n) as [y|] eqn:E; simpl.
    + rewrite E. split.
      * intros H. inversion H. subst. eauto.
      * intros (n' & Hn & Hv). inversion Hn; subst. congruence.
    + split; [discriminate|]. intros (n' & Hn & Hv). inversion Hn; subst. congruence.
  - split; [discriminate|]. intros (n' & Hn & _). discriminate.
Qed.

(** On a well-formed trie, iterating yields each key once, and yields
    [(key, v)] exactly when [t[key]] is [v]. *)
Lemma iter_getitem_wf K t :
  supported K -> wf K t ->
  exists l, iter t = Ok l /\ NoDup (map fst l)
            /\ forall key v, In (key, v) l <-> getitem t key = Ok (Some v).
Proof.
  intros Sup W. eexists. split; [apply (iter_wf _ _ W)|]. split.
  - rewrite map_map. simpl.
    rewrite <- (map_map fst (key_app (empty_of K))).
    apply NoDup_map_NoDup_ForallPairs; [|apply (gen_paths_NoDup _ _ W)].
    intros p q Ip Iq E.
    apply in_map_iff in Ip, Iq.
    destruct Ip as ((p', x) & <- & Ip), Iq as ((q', y) & <- & Iq).
    apply (key_app_inj K _ _ Sup); [apply (gen_paths_atoms _ _ W _ _ Ip)
                             | apply (gen_paths_atoms _ _ W _ _ Iq) | exact E].
  - intros key v. rewrite in_map_iff. split.
    + intros ((p, x) & E & Ip). simpl in E. inversion E; subst.
      pose proof (gen_paths_atoms _ _ W _ _ Ip) as Fp.
      destruct (key_of_path K p Sup Fp) as [Hp Hk].
      apply (getitem_walk K _ _ _ Sup (wf_type _ _ W) Hk). rewrite Hp.
      apply (gen_paths_walk _ _ W). exact Ip.
    + intros G. pose proof (getitem_type _ _ _ G) as Ht.
      rewrite (wf_type _ _ W) in Ht.
      assert (Hk : type_of key = K) by congruence.
      apply (getitem_walk K _ _ _ Sup (wf_type _ _ W) Hk) in G.
      apply (gen_paths_walk _ _ W) in G.
      exists (path_of K key, v). split; [|exact G]. simpl.
      f_equal. apply (path_of_key K key Sup Hk).
Qed.

Lemma iter_getitem t :
  reachable t ->
  exists l, iter t = Ok l /\ NoDup (map fst l)
            /\ forall key v, In (key, v) l <-> getitem t key = Ok (Some v).
Proof.
  intros R. destruct (reachable_wf _ R) as [->|(K & Sup & W)].
  - exists []. split; [reflexivity|]. split; [constructor|].
    intros key v. simpl. split; [tauto | discriminate].
  - now apply (iter_getitem_wf K).
Qed.

End GetFacts.

(** ** The stable sort *)

Lemma firstn_In {B : Type} (n : nat) (l : list B) (x : B) :
  In x (firstn n l) -> In x l.
Proof.
  intros I. rewrite <- (firstn_skipn n l). apply in_or_app. now left.
Qed.

Lemma firstn_NoDup {B : Type} (n : nat) (l : list B) :
  NoDup l -> NoDup (firstn n l).
Proof.
  intros ND. rewrite <- (firstn_skipn n l) in ND.
  now apply NoDup_app_remove_r in ND.
Qed.

Section SortFacts.

Context {A : Type}.
Implicit Types (x : A * Z) (l : list (A * Z)).

Lemma insert_desc_perm x l : Permutation (insert_desc x l) (x :: l).
Proof.
  induction l as [|y l IH]; simpl; [reflexivity|].
  destruct (snd x <? snd y)%Z; [|reflexivity].
  rewrite IH. apply perm_swap.
Qed.

Lemma sort_desc_perm l : Permutation (sort_desc l) l.
Proof.
  induction l as [|x l IH]; simpl; [reflexivity|].
  rewrite insert_desc_perm. now constructor.
Qed.

Lemma insert_desc_descending x l :
  descending l -> descending (insert_desc x l).
Proof.
  unfold descending. induction 1 as [|y l S IH F]; simpl.
  - repeat constructor.
  - destruct (snd x <? snd y)%Z eqn:E.
    + apply Z.ltb_lt in E. constructor; [assumption|].
      apply Forall_forall. intros z Iz.
      apply (Permutation_in _ (insert_desc_perm x l)) in Iz.
      destruct Iz as [<-|Iz]; [lia|].
      rewrite Forall_forall in F. now apply F.
    + apply Z.ltb_ge in E. constructor; [now constructor|].
      constructor; [assumption|].
      rewrite Forall_forall in F |- *. intros z Iz.
      specialize (F z Iz). lia.
Qed.

Lemma sort_desc_descending l : descending (sort_desc l).
Proof.
  induction l as [|x l IH]; simpl; [constructor|].
  now apply insert_desc_descending.
Qed.

(** Entries of one frequency stay in the order they had. *)
Lemma insert_desc_with_freq f x l :
  with_freq f (insert_desc x l) = with_freq f (x :: l).
Proof.
  unfold with_freq. induction l as [|y l IH]; simpl; [reflexivity|].
  destruct (snd x <? snd y)%Z eqn:E; [|reflexivity].
  apply Z.ltb_lt in E. simpl. rewrite IH. simpl.
  destruct (snd x =? f)%Z eqn:Ex, (snd y =? f)%Z eqn:Ey; try reflexivity.
  apply Z.eqb_eq in Ex, Ey. lia.
Qed.

Lemma sort_desc_stable f l : with_freq f (sort_desc l) = with_freq f l.
Proof.
  induction l as [|x l IH]; simpl; [reflexivity|].
  rewrite insert_desc_with_freq. unfold with_freq in *. simpl. now rewrite IH.
Qed.

Lemma descending_firstn n l : descending l -> descending (firstn n l).
Proof.
  unfold descending. intros S. revert n.
  induction S as [|y l S IH F]; intros [|n]; simpl; try constructor.
  - apply IH.
  - rewrite Forall_forall in F |- *. intros z Iz.
    apply F. eapply firstn_In; eauto.
Qed.

(** Cutting a list cuts each frequency class at some point. *)
Lemma with_freq_firstn f n l :
  exists m, with_freq f (firstn n l) = firstn m (with_freq f l).
Proof.
  unfold with_freq. revert n. induction l as [|x l IH]; intros n.
  - exists 0. now rewrite firstn_nil.
  - destruct n as [|n]; [now exists 0|]. simpl.
    destruct (IH n) as (m & Hm).
    destruct (snd x =? f)%Z.
    + exists (S m). simpl. now rewrite Hm.
    + now exists m.
Qed.

Lemma slice_to_firstn {B : Type} (n : Z) (l : list B) :
  exists m, slice_to n l = firstn m l.
Proof. unfold slice_to. destruct (n <? 0)%Z; eauto. Qed.

Lemma slice_to_length {B : Type} (n : nat) (l : list B) :
  length (slice_to (Z.of_nat n) l) = Nat.min n (length l).
Proof.
  unfold slice_to. destruct (Z.of_nat n <? 0)%Z eqn:E.
  - apply Z.ltb_lt in E. lia.
  - rewrite Nat2Z.id. apply length_firstn.
Qed.

End SortFacts.

(** ** Prefixes *)

Lemma prefixb_spec {A : Type} (dec : forall a b : A, {a = b} + {a <> b}) p l :
  prefixb dec p l = true <-> exists q, l = p ++ q.
Proof.
  revert l. induction p as [|x p IH]; intros l; simpl.
  - split; [eauto | reflexivity].
  - destruct l as [|y l].
    + split; [discriminate | intros (q & E); discriminate].
    + destruct (dec x y) as [<-|N].
      * rewrite IH. split; intros (q & E); exists q; congruence.
      * split; [discriminate | intros (q & E); congruence].
Qed.

Lemma filter_map_comm {A B : Type} (f : A -> B) (P : B -> bool) (l : list A) :
  filter P (map f l) = map f (filter (fun x => P (f x)) l).
Proof.
  induction l as [|x l IH]; simpl; [reflexivity|].
  rewrite IH. now destruct (P (f x)).
Qed.

Lemma filter_none {A : Type} (P : A -> bool) (l : list A) :
  (forall x, In x l -> P x = false) -> filter P l = [].
Proof.
  induction l as [|x l IH]; intros H; simpl; [reflexivity|].
  rewrite (H x (or_introl eq_refl)). apply IH. intros y I. apply H. now right.
Qed.

Section PrefixFacts.

Context {V : Type}.
Implicit Types (t node : Trie V) (cs : list (atom * Trie V)).

Local Arguments wf : simpl never.

Lemma walk_wf K p t sub : wf K t -> walk p t = Some sub -> wf K sub.
Proof.
  revert t. induction p as [|a p IH]; intros t W; simpl.
  - now intros [= <-].
  - destruct (lookup a (children t)) as [c|] eqn:L; [|discriminate].
    apply IH. exact (proj2 (wf_lookup _ _ _ _ W L)).
Qed.

Lemma walk_app p q t :
  walk (p ++ q) t
  = match walk p t with Some n => walk q n | None => None end.
Proof.
  revert t. induction p as [|a p IH]; intros t; simpl; [reflexivity|].
  destruct (lookup a (children t)); [apply IH | reflexivity].
Qed.

(** In a well-formed trie every node has the type of the root, so the
    loop of [find_completes_prefix] follows the path of the prefix. *)
Lemma prefix_loop_walk K (t : Trie Z) ks :
  wf K t -> prefix_loop ks t = walk (map (wrap (Some K)) ks) t.
Proof.
  revert t. induction ks as [|c ks IH]; intros t W; simpl; [reflexivity|].
  rewrite (wf_type _ _ W).
  destruct (lookup _ (children t)) as [n|] eqn:L; [|reflexivity].
  apply IH. exact (proj2 (wf_lookup _ _ _ _ W L)).
Qed.

Lemma filter_cons_paths a q b (l : list (list atom * V)) :
  filter (fun pv => prefixb atom_eq_dec (a :: q) (fst pv))
         (map (fun pv => (b :: fst pv, snd pv)) l)
  = if atom_eq_dec b a
    then map (fun pv => (b :: fst pv, snd pv))
             (filter (fun pv => prefixb atom_eq_dec q (fst pv)) l)
    else [].
Proof.
  rewrite filter_map_comm.
  destruct (atom_eq_dec b a) as [->|N].
  - f_equal. apply filter_ext. intros [p v]. simpl.
    destruct (atom_eq_dec a a); [reflexivity | contradiction].
  - replace (filter _ l) with (@nil (list atom * V)); [reflexivity|].
    symmetry. apply filter_none. intros [p v] _. simpl.
    destruct (atom_eq_dec a b); [congruence | reflexivity].
Qed.

Lemma filter_children a q cs :
  NoDup (map fst cs) ->
  filter (fun pv => prefixb atom_eq_dec (a :: q) (fst pv))
         (flat_map (fun kt => map (fun pv => (fst kt :: fst pv, snd pv))
                                  (gen_paths (snd kt))) cs)
  = match lookup a cs with
    | Some c => map (fun pv => (a :: fst pv, snd pv))
                    (filter (fun pv => prefixb atom_eq_dec q (fst pv)) (gen_paths c))
    | None => []
    end.
Proof.
  induction cs as [|[b c] cs IH]; intros ND; [reflexivity|].
  simpl in ND. inversion ND as [|? ? NI ND']; subst.
  cbn [flat_map lookup fst snd].
  rewrite filter_app, filter_cons_paths, (IH ND').
  destruct (atom_eq_dec b a) as [->|N].
  - apply lookup_None in NI. rewrite NI. apply app_nil_r.
  - reflexivity.
Qed.

(** The keys below a path are enumerated together: those of [gen_paths]
    that start with the path are the ones of the node the path leads to. *)
Lemma gen_paths_filter K q t :
  wf K t ->
  filter (fun pv => prefixb atom_eq_dec q (fst pv)) (gen_paths t)
  = match walk q t with
    | Some sub => map (fun pv => (q ++ fst pv, snd pv)) (gen_paths sub)
    | None => []
    end.
Proof.
  revert t. induction q as [|a q IH]; intros t W.
  - simpl. rewrite filter_true. symmetry. rewrite <- (map_id (gen_paths t)) at 2.
    apply map_ext. now intros [p v].
  - destruct t as [v cs ty]. pose proof (wf_children _ _ W) as [ND F].
    simpl in ND, F. rewrite gen_paths_unfold, filter_app.
    replace (filter _ (match v with Some x => [([], x)] | None => [] end))
      with (@nil (list atom * V)) by now destruct v.
    rewrite app_nil_l, (filter_children _ _ _ ND). cbn [walk children].
    destruct (lookup a cs) as [c|] eqn:L; [|reflexivity].
    pose proof (wf_lookup _ (mkTrie v cs ty) _ _ W L) as [_ Wc].
    rewrite (IH _ Wc). destruct (walk q c); [|reflexivity].
    rewrite map_map. reflexivity.
Qed.

End PrefixFacts.

Lemma starts_with_path K prefix path :
  supported K -> type_of prefix = K -> Forall (atom_ok K) path ->
  starts_with prefix (key_app (empty_of K) path)
  = prefixb atom_eq_dec (path_of K prefix) path.
Proof.
  intros Sup <- F. destruct prefix as [s|ws|]; simpl in *.
  - unfold path_of. simpl. revert path F.
    induction s as [|x s IH]; intros path F; simpl; [reflexivity|].
    destruct F as [|a path Ha F]; [reflexivity|].
    destruct a as [c|c]; [|contradiction].
    destruct c as [|y [|z c]]; try contradiction. simpl.
    destruct (ascii_dec x y) as [E|N], (atom_eq_dec (AStr [x]) (AStr [y])) as [E'|N'];
      try congruence.
    now apply IH.
  - unfold path_of. simpl. revert path F.
    induction ws as [|x ws IH]; intros path F; simpl; [reflexivity|].
    destruct F as [|a path Ha F]; [reflexivity|].
    destruct a as [c|c]; [contradiction|]. simpl.
    destruct (str_eq_dec x c) as [E|N], (atom_eq_dec (ATup x) (ATup c)) as [E'|N'];
      try congruence.
    now apply IH.
  - destruct Sup; discriminate.
Qed.

Lemma key_concat_path K prefix path :
  supported K -> type_of prefix = K ->
  key_concat prefix (key_app (empty_of K) path) = Ok (key_app prefix path).
Proof.
  intros Sup <-. destruct prefix; simpl; try reflexivity.
  destruct Sup; discriminate.
Qed.

Lemma map_res_Ok {A B : Type} (f : A -> res B) (g : A -> B) (l : list A) :
  (forall x, In x l -> f x = Ok (g x)) -> map_res f l = Ok (map g l).
Proof.
  induction l as [|x l IH]; intros H; simpl; [reflexivity|].
  rewrite (H x (or_introl eq_refl)). simpl.
  rewrite IH by (intros y I; apply H; now right). reflexivity.
Qed.

Lemma slice_to_nil {A : Type} (n : Z) : slice_to n (@nil A) = [].
Proof. unfold slice_to. destruct (n <? 0)%Z; apply firstn_nil. Qed.

Lemma cut_nil {A : Type} mc : cut mc (@nil A) = [].
Proof. destruct mc; [apply slice_to_nil | reflexivity]. Qed.

(** What [find_completes_prefix] returns on a well-formed trie: the pairs
    of the iteration whose key starts with the prefix, sorted, then cut. *)
Lemma find_completes_prefix_wf K (t : Trie Z) prefix :
  supported K -> wf K t -> type_of prefix = K ->
  exists all, iter t = Ok all /\
    forall max_count,
      find_completes_prefix t prefix max_count
      = Ok (cut max_count
              (sort_desc (filter (fun kv => starts_with prefix (fst kv)) all))).
Proof.
  intros Sup W Hk. subst K. set (K := type_of prefix) in *.
  eexists. split; [apply (iter_wf _ _ W)|]. intros mc.
  rewrite filter_map_comm. simpl.
  rewrite (filter_ext_in _ (fun pv => prefixb atom_eq_dec (path_of K prefix) (fst pv))).
  2:{ intros [p v] Ip. simpl. apply (starts_with_path K); try easy.
      apply (gen_paths_atoms _ _ W _ _ Ip). }
  rewrite (gen_paths_filter K _ _ W).
  destruct (path_of_key K prefix Sup eq_refl) as (Hself & Fp & Hitems).
  unfold find_completes_prefix. rewrite (wf_type _ _ W).
  destruct (pytype_eq_dec (type_of prefix) K); [|contradiction].
  rewrite Hitems. simpl.
  rewrite (prefix_loop_walk K _ _ W).
  rewrite (wrap_atom_str K _ Sup Fp).
  destruct (walk (path_of K prefix) t) as [sub|] eqn:Hw.
  - pose proof (walk_wf _ _ _ _ W Hw) as Wsub.
    rewrite (iter_wf _ _ Wsub). simpl.
    rewrite (map_res_Ok _ (fun kf => (key_app prefix (path_of K (fst kf)), snd kf))).
    2:{ intros [k v] I. simpl. apply in_map_iff in I.
        destruct I as ((p, x) & E & Ip). simpl in E.
        injection E as <- <-.
        rewrite (key_concat_path K _ _ Sup eq_refl). simpl.
        pose proof (gen_paths_atoms _ _ Wsub _ _ Ip) as Fq.
        now rewrite (proj1 (key_of_path _ _ Sup Fq)). }
    simpl. rewrite !map_map. simpl.
    replace (map (fun x => (key_app prefix (path_of K (key_app (empty_of K) (fst x))),
                            snd x)) (gen_paths sub))
      with (map (fun x => (key_app (empty_of K) (path_of K prefix ++ fst x), snd x))
                (gen_paths sub)).
    + destruct mc; reflexivity.
    + apply map_ext_in. intros [p x] Ip. simpl.
      pose proof (gen_paths_atoms _ _ Wsub _ _ Ip) as Fq.
      rewrite (proj1 (key_of_path _ _ Sup Fq)).
      rewrite <- key_app_app. now rewrite Hself.
  - simpl. destruct mc; simpl; [now rewrite slice_to_nil | reflexivity].
Qed.

(** ** The corpus builders only make tries a program can hold *)

Lemma count_key_reachable (t t' : Trie Z) key :
  reachable t -> count_key t key = Ok t' -> reachable t'.
Proof.
  intros R H. unfold count_key in H. inv_bind H.
  destruct x.
  - inv_bind H. inv_bind H. now apply (reach_set _ _ _ _ R H).
  - now apply (reach_set _ _ _ _ R H).
Qed.

Lemma count_keys_reachable keys (t t' : Trie Z) :
  reachable t -> count_keys t keys = Ok t' -> reachable t'.
Proof.
  revert t. induction keys as [|key keys IH]; intros t R H; simpl in H.
  - now injection H as <-.
  - inv_bind H. apply (IH x); [|assumption].
    now apply (count_key_reachable t x key).
Qed.

Lemma make_word_trie_reachable sentences t :
  make_word_trie sentences = Ok t -> reachable t.
Proof. apply count_keys_reachable, reach_init. Qed.

Lemma make_phrase_trie_reachable sentences t :
  make_phrase_trie sentences = Ok t -> reachable t.
Proof. apply count_keys_reachable, reach_init. Qed.

Lemma sample_trie_reachable : reachable sample_trie.
Proof. apply (make_word_trie_reachable [[bat; bat; bark; bar]]). reflexivity. Qed.

(** ** Ranked completion *)

Lemma reachable_typed {V : Type} (t : Trie V) K :
  reachable t -> type t = Some K -> supported K /\ wf K t.
Proof.
  intros R Ht. destruct (reachable_wf _ R) as [->|(K' & Sup & W)].
  - discriminate.
  - rewrite (wf_type _ _ W) in Ht. injection Ht as <-. now split.
Qed.

Lemma find_completes_prefix_missing K (t : Trie Z) prefix max_count :
  supported K -> wf K t -> type_of prefix = K ->
  walk (path_of K prefix) t = None ->
  find_completes_prefix t prefix max_count = Ok [].
Proof.
  intros Sup W Hk Hw.
  destruct (path_of_key K prefix Sup Hk) as (_ & Fp & Hitems).
  unfold find_completes_prefix. rewrite (wf_type _ _ W).
  destruct (pytype_eq_dec (type_of prefix) K); [|contradiction].
  rewrite Hitems. simpl.
  now rewrite (prefix_loop_walk K _ _ W), (wrap_atom_str K _ Sup Fp), Hw.
Qed.

Lemma NoDup_map_filter {A B : Type} (f : A -> B) (P : A -> bool) (l : list A) :
  NoDup (map f l) -> NoDup (map f (filter P l)).
Proof.
  induction l as [|x l IH]; simpl; intros ND; [constructor|].
  inversion ND as [|? ? NI ND']; subst.
  destruct (P x); simpl; [|now apply IH].
  constructor; [|now apply IH].
  intros I. apply NI. apply in_map_iff in I. destruct I as (y & E & Iy).
  apply filter_In in Iy. apply in_map_iff. exists y. tauto.
Qed.

(** C6: the pairs [find_completes_prefix] computes for [autocomplete] are
    sorted by frequency, highest first, and the pairs of one frequency
    stand in the order in which iterating the trie yields them. *)
Theorem autocomplete_ranking (t : Trie Z) (prefix : pykey) (max_count : option Z) :
  reachable t -> type t = Some (type_of prefix) ->
  exists all ranked,
    iter t = Ok all
    /\ find_completes_prefix t prefix max_count = Ok ranked
    /\ autocomplete t prefix max_count = Ok (map fst ranked)
    /\ descending ranked
    /\ (forall f, exists m,
          with_freq f ranked
          = firstn m (with_freq f (filter (fun kv => starts_with prefix (fst kv)) all)))
    /\ (max_count = None ->
        forall f,
          with_freq f ranked
          = with_freq f (filter (fun kv => starts_with prefix (fst kv)) all)).
Proof.
  intros R Ht. destruct (reachable_typed _ _ R Ht) as [Sup W].
  destruct (find_completes_prefix_wf _ t prefix Sup W eq_refl) as (all & Hall & Hf).
  exists all. eexists. split; [exact Hall|]. split; [apply Hf|].
  split; [unfold autocomplete; now rewrite Hf|].
  set (enum := filter (fun kv => starts_with prefix (fst kv)) all).
  split; [|split].
  - destruct max_count as [n|]; simpl; [|apply sort_desc_descending].
    destruct (slice_to_firstn n (sort_desc enum)) as (m & ->).
    apply descending_firstn, sort_desc_descending.
  - intros f. destruct max_count as [n|]; simpl.
    + destruct (slice_to_firstn n (sort_desc enum)) as (m & ->).
      destruct (with_freq_firstn f m (sort_desc enum)) as (m' & ->).
      exists m'. now rewrite sort_desc_stable.
    + exists (length (with_freq f enum)).
      now rewrite sort_desc_stable, firstn_all.
  - intros -> f. simpl. apply sort_desc_stable.
Qed.

Lemma autocomplete_ranking_sample :
  exists all ranked,
    iter sample_trie = Ok all
    /\ find_completes_prefix sample_trie (KStr bar) (Some 1%Z) = Ok ranked
    /\ autocomplete sample_trie (KStr bar) (Some 1%Z) = Ok (map fst ranked)
    /\ descending ranked
    /\ (forall f, exists m,
          with_freq f ranked
          = firstn m (with_freq f
                        (filter (fun kv => starts_with (KStr bar) (fst kv)) all)))
    /\ (Some 1%Z = None ->
        forall f,
          with_freq f ranked
          = with_freq f (filter (fun kv => starts_with (KStr bar) (fst kv)) all)).
Proof.
  apply (autocomplete_ranking sample_trie (KStr bar) (Some 1%Z)).
  - exact sample_trie_reachable.
  - reflexivity.
Defined.

Lemma walk_missing {V : Type} (t node : Trie V) p1 a p2 :
  walk p1 t = Some node -> lookup a (children node) = None ->
  walk (p1 ++ a :: p2) t = None.
Proof. intros H1 H2. rewrite walk_app, H1. simpl. now rewrite H2. Qed.

(** C9: with a count [n], [autocomplete] returns at most [n] keys; with no
    count, every key of the trie that starts with the prefix, once; and
    nothing when a step of the walk along the prefix finds no child. *)
Theorem autocomplete_bound_and_completeness (t : Trie Z) (prefix : pykey) :
  reachable t -> type t = Some (type_of prefix) ->
  (forall n : nat,
      exists keys, autocomplete t prefix (Some (Z.of_nat n)) = Ok keys
                   /\ length keys <= n)
  /\ (exists keys,
         autocomplete t prefix None = Ok keys
         /\ NoDup keys
         /\ forall key,
              In key keys <->
              starts_with prefix key = true
              /\ exists v, getitem t key = Ok (Some v))
  /\ (forall p1 a p2 node max_count,
         path_of (type_of prefix) prefix = p1 ++ a :: p2 ->
         walk p1 t = Some node ->
         lookup a (children node) = None ->
         autocomplete t prefix max_count = Ok []).
Proof.
  intros R Ht. destruct (reachable_typed _ _ R Ht) as [Sup W].
  destruct (find_completes_prefix_wf _ t prefix Sup W eq_refl) as (all & Hall & Hf).
  destruct (iter_getitem_wf _ t Sup W) as (all' & Hall' & ND & Hin).
  assert (all' = all) by congruence. subst all'.
  set (enum := filter (fun kv => starts_with prefix (fst kv)) all) in *.
  split; [|split].
  - intros n. unfold autocomplete. rewrite Hf. simpl.
    eexists. split; [reflexivity|].
    rewrite length_map, slice_to_length. lia.
  - unfold autocomplete. rewrite Hf. simpl.
    eexists. split; [reflexivity|]. split.
    + apply (Permutation_NoDup (l := map fst enum)).
      * apply Permutation_map. symmetry. apply sort_desc_perm.
      * now apply NoDup_map_filter.
    + intros key. rewrite in_map_iff. split.
      * intros ((k, v) & E & I). simpl in E. subst k.
        apply (Permutation_in _ (sort_desc_perm enum)) in I.
        apply filter_In in I. destruct I as [I S]. simpl in S.
        split; [assumption|]. exists v. now apply Hin.
      * intros (S & v & G). exists (key, v). split; [reflexivity|].
        apply (Permutation_in _ (Permutation_sym (sort_desc_perm enum))).
        apply filter_In. split; [now apply Hin | exact S].
  - intros p1 a p2 node mc Hp Hw Hl. unfold autocomplete.
    rewrite (find_completes_prefix_missing _ t prefix mc Sup W eq_refl).
    + reflexivity.
    + rewrite Hp. now apply (walk_missing t node).
Qed.

Lemma autocomplete_bound_and_completeness_sample :
  (forall n : nat,
      exists keys, autocomplete sample_trie (KStr bar) (Some (Z.of_nat n)) = Ok keys
                   /\ length keys <= n)
  /\ (exists keys,
         autocomplete sample_trie (KStr bar) None = Ok keys
         /\ NoDup keys
         /\ forall key,
              In key keys <->
              starts_with (KStr bar) key = true
              /\ exists v, getitem sample_trie key = Ok (Some v))
  /\ (forall p1 a p2 node max_count,
         path_of (type_of (KStr bar)) (KStr bar) = p1 ++ a :: p2 ->
         walk p1 sample_trie = Some node ->
         lookup a (children node) = None ->
         autocomplete sample_trie (KStr bar) max_count = Ok []).
Proof.
  apply (autocomplete_bound_and_completeness sample_trie (KStr bar)).
  - exact sample_trie_reachable.
  - reflexivity.
Defined.

(** ** The wildcard matcher *)

Lemma skipn_nth {A : Type} (d : A) (i : nat) (l : list A) :
  i < length l -> skipn i l = nth i l d :: skipn (S i) l.
Proof.
  revert i. induction l as [|x l IH]; intros i H; simpl in H; [lia|].
  destruct i as [|i]; [reflexivity|]. simpl. apply IH. lia.
Qed.

Lemma glob_nil pattern : glob pattern [] <-> Forall (fun c => c = star) pattern.
Proof.
  induction pattern as [|p pattern IH]; simpl.
  - split; [constructor | reflexivity].
  - destruct (ascii_dec p star) as [->|N]; split.
    + intros (run & rest & E & G). symmetry in E. apply app_eq_nil in E.
      destruct E as [-> ->]. constructor; [reflexivity | now apply IH].
    + intros F. inversion F; subst. exists [], []. split; [reflexivity | now apply IH].
    + intros (w & rest & E & _). discriminate.
    + intros F. inversion F; subst. contradiction.
Qed.

Lemma only_stars_glob rest :
  rest <> [] -> (only_stars rest = true <-> glob rest []).
Proof.
  intros NE. rewrite glob_nil. destruct rest as [|c rest]; [contradiction|].
  unfold only_stars. rewrite forallb_forall, Forall_forall.
  split; intros H x I; specialize (H x I); destruct (ascii_dec x star);
    congruence.
Qed.

Lemma glob_star pattern w word :
  glob (star :: pattern) (w :: word) <->
  glob pattern (w :: word) \/ glob (star :: pattern) word.
Proof.
  simpl. destruct (ascii_dec star star) as [_|N]; [|contradiction]. split.
  - intros (run & rest & E & G). destruct run as [|x run]; simpl in E.
    + left. now subst rest.
    + injection E as -> ->. right. eauto.
  - intros [G|(run & rest & -> & G)].
    + exists [], (w :: word). now split.
    + exists (w :: run), rest. now split.
Qed.

Lemma glob_one p pattern w word :
  p <> star ->
  glob (p :: pattern) (w :: word) <-> (p = qmark \/ w = [p]) /\ glob pattern word.
Proof.
  intros N. simpl. destruct (ascii_dec p star); [contradiction|]. split.
  - intros (w' & rest & E & H & G). injection E as <- <-. now split.
  - intros [H G]. exists w, word. now split.
Qed.

(** With fuel above the number of items and pattern characters left,
    [is_match] decides glob matching of what is left. *)
Lemma is_match_rec_glob fuel word pattern w_index p_index :
  w_index <= length word -> p_index <= length pattern ->
  (length word - w_index) + (length pattern - p_index) < fuel ->
  is_match_rec fuel word pattern w_index p_index = true <->
  glob (skipn p_index pattern) (skipn w_index word).
Proof.
  revert w_index p_index.
  induction fuel as [|fuel IH]; intros wi pi Hw Hp Hf; [lia|].
  simpl is_match_rec.
  destruct (length word <=? wi) eqn:Ew.
  - apply Nat.leb_le in Ew. rewrite (skipn_all2 word) by lia.
    destruct (length pattern <=? pi) eqn:Ep.
    + apply Nat.leb_le in Ep. rewrite (skipn_all2 pattern) by lia.
      simpl. tauto.
    + apply Nat.leb_gt in Ep. apply only_stars_glob.
      rewrite (skipn_nth Ascii.zero) by lia. discriminate.
  - apply Nat.leb_gt in Ew. rewrite (@skipn_nth str [] wi word) by lia.
    destruct (length pattern <=? pi) eqn:Ep.
    + apply Nat.leb_le in Ep. rewrite (skipn_all2 pattern) by lia.
      simpl. split; discriminate.
    + apply Nat.leb_gt in Ep. rewrite (skipn_nth Ascii.zero pi pattern) by lia.
      rewrite !Nat.add_1_r.
      destruct (ascii_dec (nth pi pattern Ascii.zero) star) as [E|N]; simpl negb; cbv iota.
      * rewrite E, glob_star, orb_true_iff.
        rewrite (IH wi (S pi)) by lia.
        rewrite (IH (S wi) pi) by lia.
        rewrite (@skipn_nth str [] wi word) by lia.
        rewrite (skipn_nth Ascii.zero pi pattern) by lia.
        rewrite E. tauto.
      * rewrite (glob_one _ _ _ _ N), andb_true_iff, orb_true_iff.
        rewrite (IH (S wi) (S pi)) by lia.
        destruct (ascii_dec (nth pi pattern Ascii.zero) qmark),
                 (str_eq_dec [nth pi pattern Ascii.zero] (nth wi word []));
          intuition congruence.
Qed.

Lemma is_match_glob key pattern word :
  items key = Ok word ->
  exists b, is_match key pattern 0 0 = Ok b /\ (b = true <-> key_matches pattern key).
Proof.
  intros H. unfold is_match, key_matches. rewrite H. cbn [bind].
  eexists. split; [reflexivity|].
  rewrite is_match_rec_glob by lia. cbn [skipn]. split.
  - intros G. eauto.
  - intros (w & E & G). now injection E as <-.
Qed.

Lemma filter_res_Ok {A : Type} (f : A -> res bool) (g : A -> bool) (l : list A) :
  (forall x, In x l -> f x = Ok (g x)) -> filter_res f l = Ok (filter g l).
Proof.
  induction l as [|x l IH]; intros H; simpl; [reflexivity|].
  rewrite (H x (or_introl eq_refl)). simpl.
  rewrite IH by (intros y I; apply H; now right). reflexivity.
Qed.

Lemma supported_items key :
  supported (type_of key) -> exists word, items key = Ok word.
Proof. intros Sup. destruct (items_atoms_ok key Sup) as (w & H & _). eauto. Qed.

(** C4: [word_filter] returns exactly the pairs of the trie whose key
    matches the pattern as a glob: iterating the trie yields each of its
    pairs [(key, t[key])] once and nothing else, and [word_filter] keeps,
    in the order of this iteration, the pairs whose key matches, and no
    others. *)
Theorem word_filter_glob (t : Trie Z) (pattern : str) :
  reachable t ->
  exists all matched keep,
    iter t = Ok all
    /\ NoDup (map fst all)
    /\ (forall key v, In (key, v) all <-> getitem t key = Ok (Some v))
    /\ word_filter t pattern = Ok matched
    /\ matched = filter keep all
    /\ (forall kv, In kv all -> (keep kv = true <-> key_matches pattern (fst kv)))
    /\ NoDup (map fst matched)
    /\ (forall key v,
          In (key, v) matched <->
          getitem t key = Ok (Some v) /\ key_matches pattern key).
Proof.
  intros R. destruct (iter_getitem _ R) as (all & Hall & ND & Hin).
  set (keep := fun kv : pykey * Z =>
                 match is_match (fst kv) pattern 0 0 with
                 | Ok b => b
                 | Raise _ => false
                 end).
  assert (Hitems : forall kv, In kv all -> exists word, items (fst kv) = Ok word).
  { intros [k v] I. apply Hin in I. pose proof (getitem_type _ _ _ I) as Ht.
    destruct (reachable_typed _ _ R Ht) as [Sup _]. now apply supported_items. }
  assert (Hkeep : forall kv, In kv all ->
            (keep kv = true <-> key_matches pattern (fst kv))).
  { intros kv I. destruct (Hitems kv I) as (word & Hw).
    destruct (is_match_glob (fst kv) pattern word Hw) as (b & Hb & Hiff).
    unfold keep. now rewrite Hb. }
  exists all, (filter keep all), keep.
  split; [exact Hall|]. split; [exact ND|]. split; [exact Hin|].
  split; [|split; [reflexivity|]]; [|split; [exact Hkeep|]]; [|split].
  - unfold word_filter. rewrite Hall. simpl. apply filter_res_Ok.
    intros kv I. destruct (Hitems kv I) as (word & Hw).
    destruct (is_match_glob (fst kv) pattern word Hw) as (b & Hb & _).
    unfold keep. now rewrite Hb.
  - now apply NoDup_map_filter.
  - intros key v. rewrite filter_In. split.
    + intros [I Hk]. split; [now apply Hin|]. now apply (Hkeep _ I) in Hk.
    + intros [G Hm]. apply Hin in G. split; [assumption|]. now apply (Hkeep _ G).
Qed.

Lemma word_filter_glob_sample :
  exists all matched keep,
    iter sample_trie = Ok all
    /\ NoDup (map fst all)
    /\ (forall key v, In (key, v) all <-> getitem sample_trie key = Ok (Some v))
    /\ word_filter sample_trie ["b"; "a"; "?"]%char = Ok matched
    /\ matched = filter keep all
    /\ (forall kv, In kv all ->
          (keep kv = true <-> key_matches ["b"; "a"; "?"]%char (fst kv)))
    /\ NoDup (map fst matched)
    /\ (forall key v,
          In (key, v) matched <->
          getitem sample_trie key = Ok (Some v)
          /\ key_matches ["b"; "a"; "?"]%char key).
Proof.
  apply (word_filter_glob sample_trie ["b"; "a"; "?"]%char).
  exact sample_trie_reachable.
Defined.

(** ** The candidates of [autocorrect] *)

Lemma alphabet_lowercase c : In c alphabet <-> lowercase c.
Proof.
  unfold lowercase. rewrite <- !Nat.leb_le. split.
  - intros I. unfold alphabet in I. simpl in I.
    repeat (destruct I as [<-|I]; [split; reflexivity|]). contradiction.
  - intros [H1 H2].
    assert (B : (if in_dec ascii_dec c alphabet then true else false) = true).
    { destruct c as [[] [] [] [] [] [] [] []];
        vm_compute in H1, H2; try discriminate; vm_compute; reflexivity. }
    destruct (in_dec ascii_dec c alphabet); [assumption | discriminate].
Qed.

Lemma firstn_length_app {A : Type} (a b : list A) : firstn (length a) (a ++ b) = a.
Proof. induction a; simpl; congruence. Qed.

Lemma skipn_length_app {A : Type} (a b : list A) : skipn (length a) (a ++ b) = b.
Proof. induction a; simpl; congruence. Qed.

Lemma split_at {A : Type} (d : A) (i : nat) (l : list A) :
  i < length l -> l = firstn i l ++ [nth i l d] ++ skipn (i + 1) l.
Proof.
  intros H. rewrite <- (firstn_skipn i l) at 1. f_equal.
  rewrite (skipn_nth d) by assumption. simpl. now rewrite Nat.add_1_r.
Qed.

Lemma flat_map_singletons {A B : Type} (g : A -> list B) (f : A -> B) (l : list A) :
  (forall x, In x l -> g x = [f x]) -> flat_map g l = map f l.
Proof.
  induction l as [|x l IH]; intros H; simpl; [reflexivity|].
  rewrite (H x (or_introl eq_refl)), IH; [reflexivity|].
  intros y I. apply H. now right.
Qed.

Lemma length_flat_map_const {A B : Type} (g : A -> list B) (n : nat) (l : list A) :
  (forall x, length (g x) = n) -> length (flat_map g l) = n * length l.
Proof.
  intros H. induction l as [|x l IH]; simpl; [lia|].
  rewrite length_app, H, IH. lia.
Qed.

Section Edits.

Variable prefix : str.

Lemma edit_insert_spec s :
  In s (edit_insert prefix) <->
  exists a b c, prefix = a ++ b /\ lowercase c /\ s = a ++ [c] ++ b.
Proof.
  unfold edit_insert. rewrite in_flat_map. split.
  - intros (i & _ & I). apply in_map_iff in I. destruct I as (c & <- & Ic).
    exists (firstn i prefix), (skipn i prefix), c.
    split; [symmetry; apply firstn_skipn|]. split; [|reflexivity].
    now apply alphabet_lowercase.
  - intros (a & b & c & -> & Hc & ->). exists (length a). split.
    + apply in_seq. rewrite length_app. lia.
    + apply in_map_iff. exists c. split; [|now apply alphabet_lowercase].
      now rewrite firstn_length_app, skipn_length_app.
Qed.

Lemma edit_delete_spec s :
  In s (edit_delete prefix) <->
  exists a x b, prefix = a ++ [x] ++ b /\ s = a ++ b.
Proof.
  unfold edit_delete. rewrite in_map_iff. split.
  - intros (i & <- & I). apply in_seq in I.
    exists (firstn i prefix), (nth i prefix Ascii.zero), (skipn (i + 1) prefix).
    split; [|reflexivity]. apply split_at. lia.
  - intros (a & x & b & -> & ->). exists (length a). split.
    + rewrite firstn_length_app. f_equal.
      rewrite app_assoc.
      replace (length a + 1) with (length (a ++ [x])) by (rewrite length_app; simpl; lia).
      apply skipn_length_app.
    + apply in_seq. rewrite !length_app. simpl. lia.
Qed.

Lemma edit_replace_spec s :
  In s (edit_replace prefix) <->
  exists a x b c, prefix = a ++ [x] ++ b /\ lowercase c /\ s = a ++ [c] ++ b.
Proof.
  unfold edit_replace. rewrite in_flat_map. split.
  - intros (i & Ii & I). apply in_seq in Ii.
    apply in_map_iff in I. destruct I as (c & <- & Ic).
    exists (firstn i prefix), (nth i prefix Ascii.zero), (skipn (i + 1) prefix), c.
    split; [apply split_at; lia|]. split; [|reflexivity].
    now apply alphabet_lowercase.
  - intros (a & x & b & c & -> & Hc & ->). exists (length a). split.
    + apply in_seq. rewrite !length_app. simpl. lia.
    + apply in_map_iff. exists c. split; [|now apply alphabet_lowercase].
      rewrite firstn_length_app. do 2 f_equal.
      rewrite app_assoc.
      replace (length a + 1) with (length (a ++ [x])) by (rewrite length_app; simpl; lia).
      apply skipn_length_app.
Qed.

(** The loop over [i] exchanges the pair at [i - 1] and [i]: one string for
    each pair of neighbours, from the first pair to the last. *)
Lemma edit_transpose_pairs :
  edit_transpose prefix
  = map (fun j => swap_adjacent j prefix) (seq 0 (length prefix - 1)).
Proof.
  unfold edit_transpose. destruct (length prefix) as [|m]; [reflexivity|].
  rewrite <- cons_seq. simpl flat_map.
  rewrite Nat.sub_succ, Nat.sub_0_r, <- seq_shift.
  rewrite flat_map_concat_map, map_map, <- flat_map_concat_map.
  apply flat_map_singletons. intros j _. simpl Nat.ltb. cbv iota.
  unfold swap_adjacent, char_at. simpl.
  rewrite Nat.sub_0_r. rewrite !Nat.add_1_r.
  now replace (j + 2) with (S (S j)) by lia.
Qed.

Lemma swap_adjacent_spec j :
  j + 1 < length prefix ->
  exists a x y b, length a = j /\ prefix = a ++ [x; y] ++ b
                  /\ swap_adjacent j prefix = a ++ [y; x] ++ b.
Proof.
  intros H.
  exists (firstn j prefix), (nth j prefix Ascii.zero),
         (nth (j + 1) prefix Ascii.zero), (skipn (j + 2) prefix).
  split; [rewrite length_firstn; lia|]. split; [|reflexivity].
  rewrite (split_at Ascii.zero j prefix) at 1 by lia. f_equal. simpl. f_equal.
  rewrite (skipn_nth Ascii.zero) by lia. rewrite Nat.add_1_r. f_equal.
  now replace (j + 2) with (S (S j)) by lia.
Qed.

Lemma edit_transpose_spec s :
  In s (edit_transpose prefix) <->
  exists a x y b, prefix = a ++ [x; y] ++ b /\ s = a ++ [y; x] ++ b.
Proof.
  rewrite edit_transpose_pairs, in_map_iff. split.
  - intros (j & <- & I). apply in_seq in I.
    destruct (swap_adjacent_spec j) as (a & x & y & b & _ & E & ->); [lia|].
    now exists a, x, y, b.
  - intros (a & x & y & b & E & ->). exists (length a). split.
    + unfold swap_adjacent. rewrite E, firstn_length_app. f_equal.
      replace (a ++ [x; y] ++ b) with ((a ++ [x]) ++ y :: b)
        by (rewrite <- app_assoc; reflexivity).
      replace (length a + 1) with (length (a ++ [x])) by (rewrite length_app; simpl; lia).
      rewrite nth_middle.
      replace ((a ++ [x]) ++ y :: b) with (a ++ x :: y :: b)
        by (rewrite <- app_assoc; reflexivity).
      rewrite nth_middle. simpl. do 2 f_equal.
      replace (a ++ x :: y :: b) with ((a ++ [x; y]) ++ b)
        by (rewrite <- app_assoc; reflexivity).
      replace (length a + 2) with (length (a ++ [x; y])) by (rewrite length_app; simpl; lia).
      apply skipn_length_app.
    + apply in_seq. rewrite E, !length_app. simpl. lia.
Qed.

Lemma possible_edits_edit1 s : In s (possible_edits prefix) <-> edit1 prefix s.
Proof.
  unfold possible_edits. rewrite !in_app_iff.
  rewrite edit_insert_spec, edit_delete_spec, edit_replace_spec, edit_transpose_spec.
  split.
  - intros [(a & b & c & E & Hc & ->)|[(a & x & b & E & ->)|
            [(a & x & b & c & E & Hc & ->)|(a & x & y & b & E & ->)]]].
    + now apply edit1_insert.
    + now apply (edit1_delete prefix a x b).
    + now apply (edit1_replace prefix a x b c).
    + now apply (edit1_transpose prefix a x y b).
  - intros H. destruct H as [a b c E Hc|a x b E|a x b c E Hc|a x y b E].
    + left. now exists a, b, c.
    + right. left. now exists a, x, b.
    + right. right. left. now exists a, x, b, c.
    + right. right. right. now exists a, x, y, b.
Qed.

(** C7: the candidates are the strings one edit away from the prefix
    (a lowercase letter put in at any place, a character left out, a
    character replaced by a lowercase letter, two neighbours exchanged),
    and the transposition loop yields one string per pair of neighbours,
    from the first pair to the last. *)
Theorem possible_edits_neighbourhood :
  (forall s, In s (possible_edits prefix) <-> edit1 prefix s)
  /\ edit_transpose prefix
     = map (fun j => swap_adjacent j prefix) (seq 0 (length prefix - 1))
  /\ (forall j, j + 1 < length prefix ->
        exists a x y b, length a = j /\ prefix = a ++ [x; y] ++ b
                        /\ swap_adjacent j prefix = a ++ [y; x] ++ b)
  /\ length (edit_insert prefix) = 26 * (length prefix + 1)
  /\ length (edit_delete prefix) = length prefix
  /\ length (edit_replace prefix) = 26 * length prefix
  /\ length (edit_transpose prefix) = length prefix - 1.
Proof.
  split; [exact possible_edits_edit1|].
  split; [apply edit_transpose_pairs|].
  split; [exact swap_adjacent_spec|].
  repeat split.
  - unfold edit_insert. rewrite (length_flat_map_const _ 26), length_seq; [reflexivity|].
    intros i. now rewrite length_map.
  - unfold edit_delete. now rewrite length_map, length_seq.
  - unfold edit_replace. rewrite (length_flat_map_const _ 26), length_seq; [reflexivity|].
    intros i. now rewrite length_map.
  - now rewrite edit_transpose_pairs, length_map, length_seq.
Qed.

End Edits.

(** ** Autocorrect *)

Lemma find_loop_value {V : Type} ty ks (node n : Trie V) :
  find_loop ty ks node = Some n -> exists v, value n = Some v.
Proof.
  rewrite find_loop_walk. destruct (walk _ node) as [m|]; [|discriminate].
  destruct (value m) as [v|] eqn:E; [|discriminate].
  intros [= <-]. eauto.
Qed.

Lemma valid_edit_spec (t : Trie Z) s comps e :
  type t = Some TStr ->
  exists o, valid_edit t s comps e = Ok o
            /\ forall kf, o = Some kf <->
                 fst kf = KStr e /\ e <> s
                 /\ getitem t (KStr e) = Ok (Some (snd kf))
                 /\ ~ In kf comps.
Proof.
  intros Ht. unfold valid_edit, contains, getitem, find. rewrite Ht. simpl.
  destruct (pytype_eq_dec TStr TStr) as [_|N]; [|contradiction].
  destruct (str_eq_dec e s) as [E|NE].
  { exists None. split; [reflexivity|]. intros kf. split; [discriminate|]. tauto. }
  destruct (find_loop (Some TStr) (map (fun c => [c]) e) t) as [n|] eqn:F; simpl.
  - destruct (find_loop_value _ _ _ _ F) as (f & Hf). rewrite Hf. simpl.
    destruct (in_dec pair_eq_dec (KStr e, f) comps) as [I|NI].
    + exists None. split; [reflexivity|]. intros [k f']. simpl.
      split; [discriminate|]. intros (-> & _ & G & NI). congruence.
    + exists (Some (KStr e, f)). split; [reflexivity|]. intros [k f']. simpl. split.
      * intros [= <- <-]. tauto.
      * intros (-> & _ & G & _). congruence.
  - exists None. split; [reflexivity|]. intros kf.
    split; [discriminate|]. intros (_ & _ & G & _). discriminate.
Qed.

Lemma valid_loop_spec (t : Trie Z) s comps popped :
  type t = Some TStr ->
  exists ve, valid_loop t s comps popped = Ok ve
    /\ (forall kf, In kf ve <->
          exists e, In e popped /\ fst kf = KStr e /\ e <> s
                    /\ getitem t (KStr e) = Ok (Some (snd kf))
                    /\ ~ In kf comps)
    /\ (NoDup popped -> NoDup (map fst ve)).
Proof.
  intros Ht. induction popped as [|e popped (ve & Hve & Hin & Hnd)]; simpl.
  - exists []. split; [reflexivity|]. split; [|constructor].
    intros kf. simpl. split; [tauto | intros (e & [] & _)].
  - destruct (valid_edit_spec t s comps e Ht) as (o & Ho & Hspec).
    rewrite Ho, Hve. simpl. eexists. split; [reflexivity|]. split.
    + intros kf. destruct o as [kf0|].
      * simpl. rewrite Hin. split.
        -- intros [<-|(e' & I & H)].
           ++ exists e. split; [now left | now apply Hspec].
           ++ exists e'. split; [now right | exact H].
        -- intros (e' & [<-|I] & H).
           ++ left. apply Hspec in H. congruence.
           ++ right. eauto.
      * rewrite Hin. split.
        -- intros (e' & I & H). exists e'. split; [now right | exact H].
        -- intros (e' & [<-|I] & H).
           ++ apply Hspec in H. discriminate.
           ++ eauto.
    + intros ND. inversion ND as [|? ? NI ND']; subst.
      destruct o as [kf0|]; [|now apply Hnd]. simpl.
      constructor; [|now apply Hnd].
      intros I. apply in_map_iff in I. destruct I as (kf & E & I).
      apply Hin in I. destruct I as (e' & Ie' & Hk & _).
      destruct (proj1 (Hspec kf0) eq_refl) as (Hk0 & _).
      apply NI. congruence.
Qed.

Lemma cut_firstn {A : Type} mc (l : list A) : exists m, cut mc l = firstn m l.
Proof.
  destruct mc as [n|]; simpl; [apply slice_to_firstn|].
  exists (length l). now rewrite firstn_all.
Qed.

Lemma NoDup_map_inj_on {A B : Type} (f : A -> B) (l : list A) x y :
  NoDup (map f l) -> In x l -> In y l -> f x = f y -> x = y.
Proof.
  induction l as [|z l IH]; simpl; intros ND Ix Iy E; [contradiction|].
  inversion ND as [|? ? NI ND']; subst.
  destruct Ix as [->|Ix], Iy as [->|Iy]; try reflexivity.
  - exfalso. apply NI. rewrite E. now apply in_map.
  - exfalso. apply NI. rewrite <- E. now apply in_map.
  - now apply IH.
Qed.

Lemma set_order_perm {A : Type} (f : list A -> list A) (l : list A) :
  set_order f -> NoDup l -> Permutation (f l) l.
Proof.
  intros Hf ND. destruct (Hf l) as [NDf Hin].
  apply NoDup_Permutation; assumption.
Qed.

Lemma set_order_length {A : Type} (f : list A -> list A) (l : list A) :
  set_order f -> length (f l) <= length l.
Proof.
  intros Hf. destruct (Hf l) as [NDf Hin].
  apply NoDup_incl_length; [assumption|]. intros x. apply Hin.
Qed.

Lemma descending_app_le {A : Type} (l1 l2 : list (A * Z)) a b :
  descending (l1 ++ l2) -> In a l1 -> In b l2 -> (snd b <= snd a)%Z.
Proof.
  unfold descending. induction l1 as [|x l1 IH]; simpl; intros S Ia Ib; [contradiction|].
  inversion S as [|? ? S' F]; subst. destruct Ia as [->|Ia].
  - rewrite Forall_forall in F. apply F. apply in_or_app. now right.
  - now apply IH.
Qed.

Lemma firstn_miss {A : Type} (m : nat) (l : list A) x :
  In x l -> ~ In x (firstn m l) -> length (firstn m l) = m /\ In x (skipn m l).
Proof.
  intros I NI. rewrite <- (firstn_skipn m l) in I. apply in_app_or in I.
  destruct I as [I|I]; [contradiction|]. split; [|assumption].
  apply firstn_length_le.
  destruct (Nat.le_gt_cases m (length l)) as [H|H]; [assumption|].
  rewrite skipn_all2 in I by lia. contradiction.
Qed.

Section Autocorrect.

Variable h : hash_seed.
Variable t : Trie Z.
Variable s : str.
Variable max_count : option Z.

Hypothesis t_reachable : reachable t.
Hypothesis t_str : type t = Some TStr.

(** What [autocorrect] computes on a trie of strings, step by step. *)
Lemma autocorrect_steps :
  exists ranked ve,
    find_completes_prefix t (KStr s) max_count = Ok ranked
    /\ NoDup (map fst ranked)
    /\ (forall kf, In kf ranked -> getitem t (fst kf) = Ok (Some (snd kf)))
    /\ (forall kf, In kf ve <-> valid_edit_of t s ranked kf)
    /\ NoDup (map fst ve)
    /\ autocorrect h t (KStr s) max_count
       = Ok (if match max_count with
                | Some n => (Z.of_nat (length (map fst ranked)) =? n)%Z
                | None => false
                end
             then map fst ranked
             else map fst (union_order h
                    (ranked ++
                     match max_count with
                     | Some n =>
                         slice_to (n - Z.of_nat (length ranked))
                                  (sort_desc (sorted_order h ve))
                     | None => ve
                     end))).
Proof.
  destruct (reachable_typed _ _ t_reachable t_str) as [Sup W].
  destruct (find_completes_prefix_wf _ t (KStr s) Sup W eq_refl) as (all & Hall & Hf).
  destruct (iter_getitem_wf _ t Sup W) as (all' & Hall' & ND & Hin).
  assert (all' = all) by congruence. subst all'.
  set (enum := filter (fun kv => starts_with (KStr s) (fst kv)) all) in *.
  set (ranked := cut max_count (sort_desc enum)).
  assert (NDr : NoDup (map fst ranked)).
  { unfold ranked. destruct (cut_firstn max_count (sort_desc enum)) as (m & ->).
    rewrite <- firstn_map. apply firstn_NoDup.
    apply (Permutation_NoDup (l := map fst enum)).
    - apply Permutation_map. symmetry. apply sort_desc_perm.
    - now apply NoDup_map_filter. }
  assert (Hr : forall kf, In kf ranked -> getitem t (fst kf) = Ok (Some (snd kf))).
  { intros [k f] I. unfold ranked in I.
    destruct (cut_firstn max_count (sort_desc enum)) as (m & E). rewrite E in I.
    apply firstn_In in I. apply (Permutation_in _ (sort_desc_perm enum)) in I.
    apply filter_In in I. now apply Hin. }
  destruct (valid_loop_spec t s ranked (pop_order h (possible_edits s)) t_str)
    as (ve & Hve & Hvin & Hvnd).
  exists ranked, ve. split; [apply Hf|]. split; [exact NDr|]. split; [exact Hr|].
  split; [|split].
  - intros kf. rewrite Hvin. unfold valid_edit_of.
    destruct (pop_order_set h (possible_edits s)) as [_ Hpop].
    split; intros (e & H1 & H2 & H3 & H4 & H5); exists e.
    + apply Hpop in H1. apply possible_edits_edit1 in H1. tauto.
    + split; [|tauto]. apply Hpop. now apply possible_edits_edit1.
  - apply Hvnd. apply (pop_order_set h).
  - unfold autocorrect, autocomplete. rewrite Hf. fold ranked. cbn [bind].
    destruct (match max_count with
              | Some n => (Z.of_nat (length (map fst ranked)) =? n)%Z
              | None => false
              end); [reflexivity|].
    rewrite Hve. cbn [bind].
    rewrite (nodup_fixed_point pair_eq_dec) by (now apply NoDup_map_inv in NDr).
    reflexivity.
Qed.

End Autocorrect.

(** C8: with a count [n], [autocorrect] returns at most [n] keys, and the
    ranked completions themselves when there are [n] of them. *)
Theorem autocorrect_bound (h : hash_seed) (t : Trie Z) (s : str) (n : nat) :
  reachable t -> type t = Some TStr ->
  exists keys completions,
    autocomplete t (KStr s) (Some (Z.of_nat n)) = Ok completions
    /\ autocorrect h t (KStr s) (Some (Z.of_nat n)) = Ok keys
    /\ length keys <= n
    /\ (length completions = n -> keys = completions).
Proof.
  intros R Ht.
  destruct (autocorrect_steps h t s (Some (Z.of_nat n)) R Ht)
    as (ranked & ve & Hf & _ & _ & _ & _ & Ha).
  assert (Hlen : length ranked <= n).
  { destruct (reachable_typed _ _ R Ht) as [Sup W].
    destruct (find_completes_prefix_wf _ t (KStr s) Sup W eq_refl) as (all & _ & Hf').
    rewrite Hf' in Hf. injection Hf as <-. simpl. rewrite slice_to_length. lia. }
  rewrite length_map in Ha.
  eexists. exists (map fst ranked). split; [unfold autocomplete; now rewrite Hf|].
  split; [exact Ha|]. rewrite length_map.
  destruct (Z.of_nat (length ranked) =? Z.of_nat n)%Z eqn:E.
  - apply Z.eqb_eq in E. rewrite length_map. split; [lia | reflexivity].
  - apply Z.eqb_neq in E. split; [|lia].
    rewrite length_map.
    etransitivity; [apply set_order_length, union_order_set|].
    rewrite length_app.
    replace (Z.of_nat n - Z.of_nat (length ranked))%Z
      with (Z.of_nat (n - length ranked)) by lia.
    rewrite slice_to_length. lia.
Qed.

Lemma autocorrect_bound_sample :
  exists keys completions,
    autocomplete sample_trie (KStr bat) (Some (Z.of_nat 2)) = Ok completions
    /\ autocorrect seed_forward sample_trie (KStr bat) (Some (Z.of_nat 2)) = Ok keys
    /\ length keys <= 2
    /\ (length completions = 2 -> keys = completions).
Proof.
  apply (autocorrect_bound seed_forward sample_trie bat 2).
  - exact sample_trie_reachable.
  - reflexivity.
Defined.

(** C1, as the code has it: the same trie and prefix give the keys in one
    order under one hash seed and in another under another, and an edit
    ([bar]) can come before a completion ([bat]). *)
Example autocorrect_order_depends_on_seed :
  autocorrect seed_forward sample_trie (KStr bat) None = Ok [KStr bat; KStr bar]
  /\ autocorrect seed_backward sample_trie (KStr bat) None = Ok [KStr bar; KStr bat]
  /\ autocomplete sample_trie (KStr bat) None = Ok [KStr bat]
  /\ autocorrect seed_forward sample_trie (KStr bat) None
     <> autocorrect seed_backward sample_trie (KStr bat) None.
Proof.
  split; [vm_compute; reflexivity|]. split; [vm_compute; reflexivity|].
  split; [vm_compute; reflexivity|]. vm_compute. discriminate.
Qed.

(** C1, amended: [autocorrect] returns, each once and in the order the set
    walk of the run gives, the keys of the ranked completions and of valid
    edits: all valid edits when no count is given; with a count [n], the
    ranked completions as they are when there are [n] of them, and
    otherwise the completions and valid edits up to [n] keys in all, no
    valid edit left out being more frequent than one that is returned. *)
Theorem autocorrect_contents (h : hash_seed) (t : Trie Z) (s : str)
    (max_count : option nat) :
  reachable t -> type t = Some TStr ->
  exists ranked edits keys,
    find_completes_prefix t (KStr s) (option_map Z.of_nat max_count) = Ok ranked
    /\ autocorrect h t (KStr s) (option_map Z.of_nat max_count) = Ok keys
    /\ Permutation keys (map fst (ranked ++ edits))
    /\ NoDup keys
    /\ (forall kf, In kf edits -> valid_edit_of t s ranked kf)
    /\ match max_count with
       | None => forall kf, valid_edit_of t s ranked kf -> In kf edits
       | Some n =>
           (length ranked = n -> keys = map fst ranked)
           /\ length ranked + length edits <= n
           /\ (forall kf', valid_edit_of t s ranked kf' -> ~ In kf' edits ->
                 length ranked + length edits = n
                 /\ forall kf, In kf edits -> (snd kf' <= snd kf)%Z)
       end.
Proof.
  intros R Ht.
  destruct (autocorrect_steps h t s (option_map Z.of_nat max_count) R Ht)
    as (ranked & ve & Hf & NDr & Hr & Hve & NDve & Ha).
  assert (Hlen : forall n, max_count = Some n -> length ranked <= n).
  { intros n ->. destruct (reachable_typed _ _ R Ht) as [Sup W].
    destruct (find_completes_prefix_wf _ t (KStr s) Sup W eq_refl) as (all & _ & Hf').
    rewrite Hf' in Hf. injection Hf as <-. simpl. rewrite slice_to_length. lia. }
  (* keys of completions and of valid edits never coincide *)
  assert (Hdisj : forall top, incl top ve -> NoDup (map fst top) ->
            NoDup (map fst (ranked ++ top))).
  { intros top Hi NDt. rewrite map_app. apply NoDup_app; [assumption..|].
    intros k I1 I2. apply in_map_iff in I1, I2.
    destruct I1 as ((k1, f1) & <- & I1), I2 as ((k2, f2) & E & I2).
    simpl in E. subst k2. apply Hi, Hve in I2.
    destruct I2 as (e & Hk & _ & _ & G & NI). simpl in Hk, G. subst k1.
    pose proof (Hr _ I1) as G1. simpl in G1. rewrite G in G1.
    injection G1 as E. subst f2. exact (NI I1). }
  assert (Hperm : forall top, incl top ve -> NoDup (map fst top) ->
            Permutation (map fst (union_order h (ranked ++ top)))
                        (map fst (ranked ++ top))
            /\ NoDup (map fst (union_order h (ranked ++ top)))).
  { intros top Hi NDt. pose proof (Hdisj top Hi NDt) as NDall.
    assert (P : Permutation (union_order h (ranked ++ top)) (ranked ++ top)).
    { apply set_order_perm; [apply union_order_set|]. now apply NoDup_map_inv in NDall. }
    split; [now apply Permutation_map|].
    apply (Permutation_NoDup (l := map fst (ranked ++ top))); [|assumption].
    symmetry. now apply Permutation_map. }
  destruct max_count as [n|]; simpl in Ha.
  - rewrite length_map in Ha.
    destruct (Z.of_nat (length ranked) =? Z.of_nat n)%Z eqn:E.
    + apply Z.eqb_eq in E. exists ranked, [], (map fst ranked).
      split; [exact Hf|]. split; [exact Ha|]. rewrite app_nil_r.
      split; [reflexivity|]. split; [assumption|].
      split; [intros kf []|]. split; [reflexivity|]. simpl.
      split; [lia|]. intros kf' _ _. split; [lia | intros kf []].
    + apply Z.eqb_neq in E. specialize (Hlen n eq_refl).
      replace (Z.of_nat n - Z.of_nat (length ranked))%Z
        with (Z.of_nat (n - length ranked)) in Ha by lia.
      set (sorted := sort_desc (sorted_order h ve)) in *.
      assert (Ps : Permutation sorted ve).
      { unfold sorted. rewrite sort_desc_perm.
        apply set_order_perm; [apply sorted_order_set|]. now apply NoDup_map_inv in NDve. }
      unfold slice_to in Ha.
      destruct (Z.of_nat (n - length ranked) <? 0)%Z eqn:Eneg;
        [apply Z.ltb_lt in Eneg; lia|].
      rewrite Nat2Z.id in Ha.
      set (top := firstn (n - length ranked) sorted) in *.
      assert (Hi : incl top ve).
      { intros kf I. apply (Permutation_in _ Ps). now apply firstn_In in I. }
      assert (NDt : NoDup (map fst top)).
      { unfold top. rewrite <- firstn_map. apply firstn_NoDup.
        apply (Permutation_NoDup (l := map fst ve)); [|assumption].
        symmetry. now apply Permutation_map. }
      destruct (Hperm top Hi NDt) as [P NDk].
      exists ranked, top. eexists.
      split; [exact Hf|]. split; [exact Ha|]. split; [exact P|].
      split; [exact NDk|]. split; [intros kf I; now apply Hve, Hi|].
      split; [intros; lia|]. split.
      * unfold top. rewrite length_firstn. lia.
      * intros kf' V NI. apply Hve in V.
        apply (Permutation_in _ (Permutation_sym Ps)) in V.
        destruct (firstn_miss _ _ _ V NI) as [Hm Hs]. fold top in Hm.
        split; [lia|]. intros kf I.
        apply (descending_app_le top (skipn (n - length ranked) sorted)); try assumption.
        unfold top. rewrite firstn_skipn. apply sort_desc_descending.
  - destruct (Hperm ve (incl_refl ve) NDve) as [P NDk].
    exists ranked, ve. eexists.
    split; [exact Hf|]. split; [exact Ha|]. split; [exact P|].
    split; [exact NDk|]. split; intros kf; apply Hve.
Qed.

Lemma autocorrect_contents_sample :
  exists ranked edits keys,
    find_completes_prefix sample_trie (KStr bat) (option_map Z.of_nat (Some 5))
    = Ok ranked
    /\ autocorrect seed_backward sample_trie (KStr bat) (option_map Z.of_nat (Some 5))
       = Ok keys
    /\ Permutation keys (map fst (ranked ++ edits))
    /\ NoDup keys
    /\ (forall kf, In kf edits -> valid_edit_of sample_trie bat ranked kf)
    /\ ((length ranked = 5 -> keys = map fst ranked)
        /\ length ranked + length edits <= 5
        /\ (forall kf', valid_edit_of sample_trie bat ranked kf' -> ~ In kf' edits ->
              length ranked + length edits = 5
              /\ forall kf, In kf edits -> (snd kf' <= snd kf)%Z)).
Proof.
  apply (autocorrect_contents seed_backward sample_trie bat (Some 5)).
  - exact sample_trie_reachable.
  - reflexivity.
Defined.

(** ** Histories *)

Section HistoryFacts.

Context {V : Type}.
Implicit Types (t node : Trie V) (ops : list (op V)).

Local Arguments wf : simpl never.

Lemma value_at_fresh ty p : value_at p (Trie_init (V:=V) ty None) = None.
Proof. destruct p; reflexivity. Qed.

Lemma value_at_cons a p node :
  value_at (a :: p) node
  = match lookup a (children node) with
    | Some n => value_at p n
    | None => None
    end.
Proof. unfold value_at. simpl. now destruct (lookup a (children node)). Qed.

Lemma setitem_loop_children ty c ks x node :
  children (setitem_loop ty (c :: ks) x node)
  = upsert (wrap ty c) (Trie_init ty None) (setitem_loop ty ks x) (children node).
Proof. reflexivity. Qed.

(** An assignment changes the value at its own path and at no other. *)
Lemma value_at_setitem_loop ty ks x node p :
  value_at p (setitem_loop ty ks x node)
  = if list_eq_dec atom_eq_dec p (map (wrap ty) ks) then x else value_at p node.
Proof.
  revert node p. induction ks as [|c ks IH]; intros node p.
  - destruct p as [|a p].
    + now destruct (list_eq_dec atom_eq_dec [] (map (wrap ty) [])).
    + destruct (list_eq_dec atom_eq_dec (a :: p) (map (wrap ty) []));
        [discriminate | reflexivity].
  - change (map (wrap ty) (c :: ks)) with (wrap ty c :: map (wrap ty) ks).
    destruct p as [|a p].
    + destruct (list_eq_dec atom_eq_dec [] (wrap ty c :: map (wrap ty) ks));
        [discriminate | reflexivity].
    + rewrite !value_at_cons, setitem_loop_children.
      destruct (atom_eq_dec (wrap ty c) a) as [<-|N].
      * rewrite lookup_upsert_same, IH.
        destruct (list_eq_dec atom_eq_dec p (map (wrap ty) ks)) as [->|Np].
        -- now destruct (list_eq_dec atom_eq_dec
                           (wrap ty c :: map (wrap ty) ks)
                           (wrap ty c :: map (wrap ty) ks)).
        -- destruct (list_eq_dec atom_eq_dec
                       (wrap ty c :: p) (wrap ty c :: map (wrap ty) ks)) as [E|_];
             [congruence|].
           destruct (lookup (wrap ty c) (children node)); [reflexivity|].
           apply value_at_fresh.
      * rewrite (lookup_upsert_other _ _ _ _ _ N).
        destruct (list_eq_dec atom_eq_dec
                    (a :: p) (wrap ty c :: map (wrap ty) ks)) as [E|_];
          [congruence | reflexivity].
Qed.

Lemma stored_value_at K t key :
  supported K -> type t = Some K -> type_of key = K ->
  stored t key = value_at (path_of K key) t.
Proof.
  intros Sup Ht Hk. unfold stored.
  destruct (value_at (path_of K key) t) as [v|] eqn:E.
  - assert (G : getitem t key = Ok (Some v)).
    { apply (getitem_walk K _ _ _ Sup Ht Hk). unfold value_at in E.
      destruct (walk (path_of K key) t) as [n|]; [eauto | discriminate]. }
    now rewrite G.
  - destruct (getitem t key) as [[v|]|] eqn:G; try reflexivity.
    apply (getitem_walk K _ _ _ Sup Ht Hk) in G. destruct G as (n & Hn & Hv).
    unfold value_at in E. rewrite Hn in E. congruence.
Qed.

Lemma stored_other_type t key ty :
  type t = ty -> ty <> Some (type_of key) -> stored t key = None.
Proof.
  intros Ht N. unfold stored.
  destruct (getitem t key) as [[v|]|] eqn:G; try reflexivity.
  apply getitem_type in G. congruence.
Qed.

Lemma path_of_inj K key key' :
  supported K -> type_of key = K -> type_of key' = K ->
  path_of K key = path_of K key' -> key = key'.
Proof.
  intros Sup Hk Hk' E.
  rewrite <- (proj1 (path_of_key K key Sup Hk)).
  rewrite <- (proj1 (path_of_key K key' Sup Hk')). now rewrite E.
Qed.

(** [__setitem__] on a trie of a history of type [K], with a key of
    this type: no exception, and the loop runs on the path of the key. *)
Lemma setitem_of_type K t key x :
  supported K -> of_type K t -> type_of key = K ->
  setitem t key x
  = Ok (setitem_loop (Some K) (map atom_str (path_of K key)) x (with_type t (Some K)))
  /\ wf K (with_type t (Some K)).
Proof.
  intros Sup Ht Hk.
  destruct (path_of_key K key Sup Hk) as (_ & Fp & Hitems). split.
  - unfold setitem. rewrite Hitems.
    destruct Ht as [->|W].
    + simpl. subst K. destruct Sup as [E|E]; rewrite E; reflexivity.
    + destruct t as [v cs ty]. pose proof (wf_type _ _ W) as Hty. simpl in Hty.
      subst ty. simpl. destruct cs as [|kc cs].
      * subst K. destruct Sup as [E|E]; rewrite E; reflexivity.
      * destruct (pytype_eq_dec (type_of key) K); [reflexivity | contradiction].
  - destruct Ht as [->|W]; [apply wf_fresh|].
    destruct t as [v cs ty]. pose proof (wf_type _ _ W) as Hty. simpl in Hty.
    now subst ty.
Qed.

(** An assignment with a key of the type of the history changes what is
    stored for this key only. *)
Lemma setitem_stored K t key x :
  supported K -> of_type K t -> type_of key = K ->
  exists t', setitem t key x = Ok t' /\ wf K t'
             /\ forall key', stored t' key'
                             = if pykey_eq_dec key key' then x else stored t key'.
Proof.
  intros Sup Ht Hk.
  destruct (path_of_key K key Sup Hk) as (_ & Fp & Hitems).
  destruct (setitem_of_type K t key x Sup Ht Hk) as [Hset Wt].
  eexists. split; [exact Hset|].
  assert (W' : wf K (setitem_loop (Some K) (map atom_str (path_of K key)) x
                       (with_type t (Some K)))).
  { apply setitem_loop_wf; [assumption|].
    apply Forall_forall. intros c Ic.
    assert (Ia : In (wrap (Some K) c) (path_of K key)).
    { rewrite <- (wrap_atom_str K _ Sup Fp). now apply in_map. }
    rewrite Forall_forall in Fp. now apply Fp. }
  split; [exact W'|]. intros key'.
  destruct (pytype_eq_dec (type_of key') K) as [Hk'|N].
  - rewrite (stored_value_at K _ _ Sup (wf_type _ _ W') Hk').
    rewrite value_at_setitem_loop, (wrap_atom_str K _ Sup Fp).
    destruct (list_eq_dec atom_eq_dec (path_of K key') (path_of K key)) as [E|NE].
    + apply (path_of_inj K _ _ Sup Hk' Hk) in E. subst key'.
      destruct (pykey_eq_dec key key); [reflexivity | contradiction].
    + destruct (pykey_eq_dec key key') as [->|_]; [contradiction|].
      destruct Ht as [->|W].
      * change (with_type (Trie_init None None) (Some K))
          with (Trie_init (V:=V) (Some K) None).
        rewrite value_at_fresh. symmetry.
        now apply (stored_other_type _ _ None).
      * rewrite (stored_value_at K _ _ Sup (wf_type _ _ W) Hk').
        destruct t as [v cs ty]. pose proof (wf_type _ _ W) as Hty. simpl in Hty.
        now subst ty.
  - destruct (pykey_eq_dec key key') as [->|_]; [contradiction|].
    rewrite (stored_other_type _ key' (Some K)); [|apply (wf_type _ _ W')|congruence].
    symmetry. destruct Ht as [->|W].
    + now apply (stored_other_type _ _ None).
    + apply (stored_other_type _ key' (Some K)); [apply (wf_type _ _ W)|congruence].
Qed.

Lemma apply_op_stored K t o :
  supported K -> of_type K t -> type_of (op_key o) = K ->
  of_type K (apply_op t o)
  /\ forall key, stored (apply_op t o) key = step_latest key (stored t key) o.
Proof.
  intros Sup Ht Hk. destruct o as [k v|k]; simpl in Hk; unfold apply_op.
  - destruct (setitem_stored K t k (Some v) Sup Ht Hk) as (t' & -> & W' & Hs).
    split; [now right|]. exact Hs.
  - unfold delitem. destruct (getitem t k) as [x|e] eqn:G; simpl.
    + destruct (setitem_stored K t k None Sup Ht Hk) as (t' & -> & W' & Hs).
      split; [now right|]. exact Hs.
    + split; [assumption|]. intros key.
      destruct (pykey_eq_dec k key) as [<-|N]; [|reflexivity].
      unfold stored. now rewrite G.
Qed.

Lemma fold_apply_op_stored K ops t :
  supported K -> of_type K t ->
  Forall (fun o => type_of (op_key o) = K) ops ->
  of_type K (fold_left apply_op ops t)
  /\ forall key, stored (fold_left apply_op ops t) key
                 = fold_left (step_latest key) ops (stored t key).
Proof.
  intros Sup. revert t. induction ops as [|o ops IH]; intros t Ht F; simpl.
  - now split.
  - inversion F as [|? ? Ho F']; subst.
    destruct (apply_op_stored (type_of (op_key o)) t o Sup Ht eq_refl) as [Ht' Hs].
    destruct (IH _ Ht' F') as [Hf Hs']. split; [exact Hf|].
    intros key. now rewrite Hs', Hs.
Qed.

Lemma apply_op_reachable t o : reachable t -> reachable (apply_op t o).
Proof.
  intros R. unfold apply_op. destruct o as [k v|k].
  - destruct (setitem t k (Some v)) eqn:E; [|assumption].
    now apply (reach_set t k (Some v)).
  - destruct (delitem t k) eqn:E; [|assumption].
    now apply (reach_del t k).
Qed.

Lemma run_reachable ops : reachable (run ops).
Proof.
  unfold run. generalize (reach_init (V:=V)).
  generalize (Trie_init (V:=V) None None).
  induction ops as [|o ops IH]; intros t R; simpl; [assumption|].
  apply IH. now apply apply_op_reachable.
Qed.

(** After a history whose keys are all of one type, iterating the trie
    yields each key that the history leaves present, once, with the value
    it leaves for it, and nothing else. *)
Lemma iter_after_history K ops :
  supported K ->
  Forall (fun o => type_of (op_key o) = K) ops ->
  exists l, iter (run ops) = Ok l
            /\ NoDup (map fst l)
            /\ forall key v, In (key, v) l <-> latest ops key = Some v.
Proof.
  intros Sup F.
  destruct (iter_getitem _ (run_reachable ops)) as (l & Hl & ND & Hin).
  exists l. split; [exact Hl|]. split; [exact ND|].
  intros key v. rewrite Hin.
  destruct (fold_apply_op_stored K ops (Trie_init None None) Sup (or_introl eq_refl) F)
    as [_ Hs].
  specialize (Hs key). fold (run ops) in Hs.
  change (stored (Trie_init None None) key) with (@None V) in Hs.
  fold (latest ops key) in Hs. rewrite <- Hs. unfold stored.
  destruct (getitem (run ops) key) as [[x|]|]; split; congruence.
Qed.

End HistoryFacts.

(** ** The order of iteration *)

Lemma ForallOrdPairs_app {A : Type} (R : A -> A -> Prop) (l1 l2 : list A) :
  ForallOrdPairs R l1 -> ForallOrdPairs R l2 ->
  (forall x y, In x l1 -> In y l2 -> R x y) ->
  ForallOrdPairs R (l1 ++ l2).
Proof.
  induction 1 as [|x l1 F1 O1 IH]; intros O2 H; simpl; [assumption|].
  constructor.
  - apply Forall_app. split; [assumption|].
    apply Forall_forall. intros y Iy. apply H; [now left | assumption].
  - apply IH; [assumption|]. intros a b Ia Ib. apply H; [now right | assumption].
Qed.

Lemma ForallOrdPairs_map {A B : Type} (f : A -> B) (R : B -> B -> Prop) (l : list A) :
  ForallOrdPairs (fun x y => R (f x) (f y)) l -> ForallOrdPairs R (map f l).
Proof.
  induction 1 as [|x l F O IH]; simpl; constructor; [|assumption].
  apply Forall_forall. intros y Iy. apply in_map_iff in Iy.
  destruct Iy as (z & <- & Iz). rewrite Forall_forall in F. now apply F.
Qed.

Lemma ForallOrdPairs_impl_in {A : Type} (R R' : A -> A -> Prop) (l : list A) :
  (forall x y, In x l -> In y l -> R x y -> R' x y) ->
  ForallOrdPairs R l -> ForallOrdPairs R' l.
Proof.
  intros H O. induction O as [|x l F O IH]; constructor.
  - rewrite Forall_forall in F |- *. intros y Iy.
    apply H; [now left | now right | now apply F].
  - apply IH. intros a b Ia Ib. apply H; now right.
Qed.

Lemma path_before_ext steps steps' p q :
  (forall r, steps r = steps' r) ->
  path_before steps p q -> path_before steps' p q.
Proof.
  intros E [r a r'|r a r1 b r2 B]; [constructor|].
  constructor. now rewrite <- E.
Qed.

Lemma path_before_cons steps a p q :
  path_before (fun r => steps (a :: r)) p q ->
  path_before steps (a :: p) (a :: q).
Proof.
  intros [r b r'|r b r1 c r2 B].
  - apply (before_descendant steps (a :: r) b r').
  - apply (before_sibling steps (a :: r) b r1 c r2). exact B.
Qed.

Section OrderFacts.

Context {V : Type}.
Implicit Types (t node : Trie V) (cs : list (atom * Trie V)) (ops : list (op V)).

Local Arguments wf : simpl never.

Lemma keys_at_cons a p t :
  keys_at (a :: p) t
  = match lookup a (children t) with
    | Some n => keys_at p n
    | None => []
    end.
Proof. unfold keys_at. simpl. now destruct (lookup a (children t)). Qed.

Lemma keys_at_fresh ty p : keys_at p (Trie_init (V:=V) ty None) = [].
Proof. destruct p; reflexivity. Qed.

(** Iterating a well-formed trie goes depth first, through the children
    of each node in the order of its dict. *)
Lemma gen_paths_order K t :
  wf K t ->
  ForallOrdPairs (path_before (fun p => keys_at p t)) (map fst (gen_paths t)).
Proof.
  induction t as [v cs ty IH] using Trie_nested_ind. intros W.
  apply wf_unfold in W. destruct W as (_ & ND & F).
  rewrite gen_paths_unfold, map_app.
  set (t := mkTrie v cs ty).
  assert (Hblocks : forall pre cs', cs = pre ++ cs' ->
            ForallOrdPairs (path_before (fun p => keys_at p t))
              (map fst (flat_map (fun kt => map (fun pv => (fst kt :: fst pv, snd pv))
                                                (gen_paths (snd kt))) cs'))
            /\ forall p, In p (map fst (flat_map
                          (fun kt => map (fun pv => (fst kt :: fst pv, snd pv))
                                         (gen_paths (snd kt))) cs')) ->
                 exists a q, p = a :: q /\ In a (map fst cs')).
  { intros pre cs'. revert pre. induction cs' as [|[a c] cs' IHcs]; intros pre E.
    - split; [constructor | intros p []].
    - destruct (IHcs (pre ++ [(a, c)])) as [Or Hr];
        [rewrite <- app_assoc; exact E|].
      assert (Ic : In (a, c) cs) by (rewrite E; apply in_or_app; right; now left).
      rewrite Forall_forall in IH, F. destruct (F _ Ic) as [_ Wc].
      pose proof (IH _ Ic Wc) as Oc. simpl in Oc.
      cbn [flat_map fst snd]. rewrite map_app, map_map. cbn [fst].
      rewrite <- (map_map fst (cons a)). split.
      + apply ForallOrdPairs_app.
        * apply ForallOrdPairs_map.
          apply (ForallOrdPairs_impl_in (path_before (fun p => keys_at p c)));
            [|exact Oc].
          intros p q _ _ B. apply path_before_cons.
          apply (path_before_ext (fun r => keys_at r c)); [|exact B].
          intros r. rewrite keys_at_cons. unfold t. simpl.
          now rewrite (In_lookup _ _ _ ND Ic).
        * exact Or.
        * intros p q Ip Iq. apply in_map_iff in Ip. destruct Ip as (p' & <- & _).
          apply Hr in Iq. destruct Iq as (b & q' & -> & Ib).
          apply (before_sibling _ [] a p' b q').
          unfold keys_at, t. simpl. rewrite E, map_app. simpl.
          apply in_split in Ib. destruct Ib as (l2 & l3 & ->).
          now exists (map fst pre), l2, l3.
      + intros p I. apply in_app_iff in I. destruct I as [I|I].
        * apply in_map_iff in I. destruct I as (p' & <- & _).
          exists a, p'. split; [reflexivity | now left].
        * apply Hr in I. destruct I as (b & q & -> & Ib).
          exists b, q. split; [reflexivity | now right]. }
  destruct (Hblocks [] cs eq_refl) as [Or Hr].
  apply ForallOrdPairs_app; [| exact Or |].
  - destruct v; simpl; repeat constructor.
  - intros p q Ip Iq. apply Hr in Iq. destruct Iq as (b & q' & -> & _).
    destruct v; simpl in Ip; [|contradiction]. destruct Ip as [<-|[]].
    apply (before_descendant _ [] b q').
Qed.

(** An assignment adds the step it takes from the end of a path to the
    end of the dict there, if the dict does not have it yet. *)
Lemma keys_at_setitem_loop ty ks x node p :
  keys_at p (setitem_loop ty ks x node)
  = match child_after p (map (wrap ty) ks) with
    | Some a =>
        if in_dec atom_eq_dec a (keys_at p node) then keys_at p node
        else keys_at p node ++ [a]
    | None => keys_at p node
    end.
Proof.
  revert node p. induction ks as [|c ks IH]; intros node p.
  - destruct p; reflexivity.
  - change (map (wrap ty) (c :: ks)) with (wrap ty c :: map (wrap ty) ks).
    destruct p as [|a p].
    + cbn [child_after]. unfold keys_at. cbn [walk].
      rewrite setitem_loop_children, upsert_keys.
      destruct (lookup (wrap ty c) (children node)) as [n|] eqn:L.
      * apply lookup_In, (in_map fst) in L. simpl in L.
        now destruct (in_dec atom_eq_dec (wrap ty c) (map fst (children node))).
      * apply lookup_None in L.
        now destruct (in_dec atom_eq_dec (wrap ty c) (map fst (children node))).
    + cbn [child_after]. rewrite !keys_at_cons, setitem_loop_children.
      destruct (atom_eq_dec a (wrap ty c)) as [->|N].
      * rewrite lookup_upsert_same, IH.
        destruct (lookup (wrap ty c) (children node)); [reflexivity|].
        now rewrite keys_at_fresh.
      * rewrite lookup_upsert_other by congruence. reflexivity.
Qed.

Lemma child_after_keys p full t n a :
  walk full t = Some n -> child_after p full = Some a -> In a (keys_at p t).
Proof.
  revert full t. induction p as [|x p IH]; intros full t Hw Hc.
  - destruct full as [|y full]; [discriminate|]. simpl in Hc. injection Hc as ->.
    simpl in Hw. unfold keys_at. simpl.
    destruct (lookup a (children t)) as [c|] eqn:L; [|discriminate].
    apply lookup_In in L. now apply (in_map fst) in L.
  - destruct full as [|y full]; [discriminate|]. simpl in Hc.
    destruct (atom_eq_dec x y) as [->|N]; [|discriminate].
    simpl in Hw. rewrite keys_at_cons.
    destruct (lookup y (children t)) as [c|] eqn:L; [|discriminate].
    now apply (IH full c).
Qed.

Lemma apply_op_keys_at K t o p :
  supported K -> of_type K t -> type_of (op_key o) = K ->
  keys_at p (apply_op t o) = step_atoms K p (keys_at p t) o.
Proof.
  intros Sup Ht Hk.
  assert (Hw : forall ty, keys_at p (with_type t ty) = keys_at p t)
    by (intros ty; destruct p; reflexivity).
  destruct o as [k v|k]; simpl in Hk; unfold apply_op; simpl.
  - destruct (setitem_of_type K t k (Some v) Sup Ht Hk) as [-> _].
    destruct (path_of_key K k Sup Hk) as (_ & Fp & _).
    now rewrite keys_at_setitem_loop, (wrap_atom_str K _ Sup Fp), Hw.
  - unfold delitem. destruct (getitem t k) as [[x|]|e] eqn:G; simpl;
      try reflexivity.
    + destruct (setitem_of_type K t k None Sup Ht Hk) as [-> _].
      destruct (path_of_key K k Sup Hk) as (_ & Fp & _).
      rewrite keys_at_setitem_loop, (wrap_atom_str K _ Sup Fp), Hw.
      destruct (child_after p (path_of K k)) as [a|] eqn:C; [|reflexivity].
      pose proof (getitem_type _ _ _ G) as Hty. rewrite Hk in Hty.
      apply (getitem_walk K _ _ _ Sup Hty Hk) in G. destruct G as (n & Hn & _).
      pose proof (child_after_keys _ _ _ _ _ Hn C) as I.
      now destruct (in_dec atom_eq_dec a (keys_at p t)).
    + apply getitem_Some in G. destruct G as (v & Hv). discriminate.
Qed.

Lemma fold_apply_op_keys_at K ops t p :
  supported K -> of_type K t ->
  Forall (fun o => type_of (op_key o) = K) ops ->
  keys_at p (fold_left apply_op ops t)
  = fold_left (step_atoms K p) ops (keys_at p t).
Proof.
  intros Sup. revert t. induction ops as [|o ops IH]; intros t Ht F; simpl.
  - reflexivity.
  - inversion F as [|? ? Ho F']; subst.
    destruct (apply_op_stored (type_of (op_key o)) t o Sup Ht eq_refl) as [Ht' _].
    rewrite (IH _ Ht' F').
    now rewrite (apply_op_keys_at (type_of (op_key o)) t o p Sup Ht eq_refl).
Qed.

(** After a history whose keys are all of one type, iterating the trie
    yields the keys depth first: a key before the keys that continue it,
    and where two keys part, first the one whose step was taken first in
    the history. *)
Lemma iter_order_after_history K ops :
  supported K ->
  Forall (fun o => type_of (op_key o) = K) ops ->
  exists l, iter (run ops) = Ok l
            /\ ForallOrdPairs
                 (fun k1 k2 => path_before (first_atoms K ops)
                                 (path_of K k1) (path_of K k2))
                 (map fst l).
Proof.
  intros Sup F.
  destruct (fold_apply_op_stored K ops (Trie_init None None) Sup (or_introl eq_refl) F)
    as [[E|W] _]; fold (run ops) in *.
  - rewrite E. exists []. split; [reflexivity | constructor].
  - eexists. split; [apply (iter_wf _ _ W)|].
    rewrite map_map. cbn [fst].
    rewrite <- (map_map fst (key_app (empty_of K))).
    apply ForallOrdPairs_map.
    apply (ForallOrdPairs_impl_in (path_before (fun p => keys_at p (run ops))));
      [|apply (gen_paths_order _ _ W)].
    intros p q Ip Iq B. apply in_map_iff in Ip, Iq.
    destruct Ip as ((p', x) & <- & Ip), Iq as ((q', y) & <- & Iq). simpl in *.
    rewrite (proj1 (key_of_path K _ Sup (gen_paths_atoms _ _ W _ _ Ip))).
    rewrite (proj1 (key_of_path K _ Sup (gen_paths_atoms _ _ W _ _ Iq))).
    apply (path_before_ext (fun r => keys_at r (run ops))); [|exact B].
    intros r. unfold run, first_atoms.
    rewrite (fold_apply_op_keys_at K ops _ r Sup (or_introl eq_refl) F).
    now rewrite keys_at_fresh.
Qed.

End OrderFacts.

(** C5: [t = Trie(); t[''] = 1; t[('bat',)] = 2].  Both assignments go
    through, so the history leaves [''] present with value 1; iterating
    the trie yields [()] with this value instead, a key never assigned. *)
Example iter_after_mixed_history :
  iter (run [OpSet (KStr []) 1%Z; OpSet (KTuple [bat]) 2%Z])
  = Ok [(KTuple [], 1%Z); (KTuple [bat], 2%Z)]
  /\ latest [OpSet (KStr []) 1%Z; OpSet (KTuple [bat]) 2%Z] (KStr []) = Some 1%Z
  /\ latest [OpSet (KStr []) 1%Z; OpSet (KTuple [bat]) 2%Z] (KTuple []) = None.
Proof. repeat split. Qed.

(** ** The scenarios of the specification *)

Example sample_iter :
  iter sample_trie = Ok [(KStr bat, 2%Z); (KStr bar, 1%Z); (KStr bark, 1%Z)].
Proof. reflexivity. Qed.

Example sample_get :
  getitem sample_trie (KStr bat) = Ok (Some 2%Z)
  /\ getitem sample_trie (KStr bar) = Ok (Some 1%Z).
Proof. split; reflexivity. Qed.

Example sample_autocomplete :
  autocomplete sample_trie (KStr ["b"; "a"]%char) (Some 1%Z) = Ok [KStr bat]
  /\ autocomplete sample_trie (KStr ["b"; "e"]%char) (Some 1%Z) = Ok [].
Proof. split; reflexivity. Qed.

Example sample_word_filter :
  word_filter sample_trie ["b"; "a"; "?"]%char
  = Ok [(KStr bat, 2%Z); (KStr bar, 1%Z)].
Proof. reflexivity. Qed.

Example sample_delete :
  (t <- delitem sample_trie (KStr bat) ;; contains t (KStr bat)) = Ok false
  /\ (t <- delitem sample_trie (KStr bat) ;; getitem t (KStr bat)) = Raise KeyError
  /\ (t <- delitem sample_trie (KStr bat) ;; iter t)
     = Ok [(KStr bar, 1%Z); (KStr bark, 1%Z)].
Proof. repeat split. Qed.

(** * Further properties of the class *)

(** ** Lookup, membership and deletion *)

Section LookupFacts.

Context {V : Type}.
Implicit Types (t node : Trie V).

Lemma find_loop_setitem_loop_None ty ks node :
  find_loop ty ks (setitem_loop ty ks None node) = None.
Proof.
  revert node. induction ks as [|c ks IH]; intros node; simpl; [reflexivity|].
  rewrite lookup_upsert_same. apply IH.
Qed.

(** What [t[key]] does is fixed by the type of the trie and by what is
    stored for the key. *)
Lemma getitem_ext t t' key :
  type t = type t' -> stored t key = stored t' key ->
  getitem t key = getitem t' key.
Proof.
  unfold stored. intros Ht Hs.
  destruct (getitem t key) as [[v|]|e] eqn:G, (getitem t' key) as [[v'|]|e'] eqn:G';
    try congruence;
    try (apply getitem_Some in G; destruct G; discriminate);
    try (apply getitem_Some in G'; destruct G'; discriminate).
  unfold getitem, find in G, G'. rewrite <- Ht in G'.
  destruct (type t) as [ty|]; [|congruence].
  destruct (pytype_eq_dec ty (type_of key)); [|congruence].
  destruct (items key) as [ks|]; simpl in *; [|congruence].
  destruct (find_loop (Some ty) ks t); [discriminate|].
  destruct (find_loop (Some ty) ks t'); [discriminate|]. congruence.
Qed.

(** X1: [t[key]] and [del t[key]] raise [TypeError] when the type of the
    trie is not the type of the key; when it is, either [key in t] is true
    and [t[key]] returns a value, or [key in t] is false and both raise
    [KeyError]. *)
Theorem lookup_outcomes t key :
  supported (type_of key) ->
  (type t <> Some (type_of key) ->
   getitem t key = Raise TypeError /\ delitem t key = Raise TypeError)
  /\ (type t = Some (type_of key) ->
      (exists v, contains t key = Ok true /\ getitem t key = Ok (Some v))
      \/ (contains t key = Ok false
          /\ getitem t key = Raise KeyError
          /\ delitem t key = Raise KeyError)).
Proof.
  intros Sup. destruct (supported_items key Sup) as (ks & Hks). split.
  - intros N.
    assert (G : getitem t key = Raise TypeError).
    { unfold getitem. destruct (type t) as [ty|]; [|reflexivity].
      destruct (pytype_eq_dec ty (type_of key)); [congruence | reflexivity]. }
    split; [exact G|]. unfold delitem. now rewrite G.
  - intros Ht. unfold delitem, contains, getitem, find. rewrite Ht, Hks. simpl.
    destruct (pytype_eq_dec (type_of key) (type_of key)); [|contradiction].
    destruct (find_loop (Some (type_of key)) ks t) as [n|] eqn:F.
    + left. destruct (find_loop_value _ _ _ _ F) as (v & Hv).
      exists v. now rewrite Hv.
    + right. now repeat split.
Qed.

End LookupFacts.

Lemma lookup_outcomes_sample :
  (type sample_trie <> Some (type_of (KStr bat)) ->
   getitem sample_trie (KStr bat) = Raise TypeError
   /\ delitem sample_trie (KStr bat) = Raise TypeError)
  /\ (type sample_trie = Some (type_of (KStr bat)) ->
      (exists v, contains sample_trie (KStr bat) = Ok true
                 /\ getitem sample_trie (KStr bat) = Ok (Some v))
      \/ (contains sample_trie (KStr bat) = Ok false
          /\ getitem sample_trie (KStr bat) = Raise KeyError
          /\ delitem sample_trie (KStr bat) = Raise KeyError)).
Proof.
  apply (lookup_outcomes sample_trie (KStr bat)). left. reflexivity.
Defined.

(** X2: [key in t] does not look at the type of the trie: a string and the
    tuple of its characters get the same answer, and no exception, on every
    trie, although [t[key]] raises [TypeError] for at least one of them. *)
Theorem contains_ignores_type {V : Type} (t : Trie V) (s : str) :
  exists b,
    contains t (KStr s) = Ok b
    /\ contains t (KTuple (map (fun c => [c]) s)) = Ok b
    /\ (getitem t (KStr s) = Raise TypeError
        \/ getitem t (KTuple (map (fun c => [c]) s)) = Raise TypeError).
Proof.
  eexists. split; [reflexivity|]. split; [reflexivity|].
  unfold getitem. destruct (type t) as [ty|]; [|now left]. simpl.
  destruct (pytype_eq_dec ty TStr) as [->|N]; [right | now left].
  now destruct (pytype_eq_dec TStr TTuple).
Qed.

Example contains_string_in_tuple_trie :
  (t <- make_phrase_trie [[["b"]; ["a"]]]%char ;; contains t (KStr ["b"; "a"]%char))
  = Ok true
  /\ (t <- make_phrase_trie [[["b"]; ["a"]]]%char ;; getitem t (KStr ["b"; "a"]%char))
     = Raise TypeError.
Proof. split; reflexivity. Qed.

Section AssignFacts.

Context {V : Type}.
Implicit Types (t node : Trie V).

Lemma stored_None_outcomes t key :
  supported (type_of key) -> type t = Some (type_of key) -> stored t key = None ->
  contains t key = Ok false /\ getitem t key = Raise KeyError.
Proof.
  intros Sup Ht Hs. destruct (supported_items key Sup) as (ks & Hks).
  unfold stored in Hs. unfold contains, getitem, find in *.
  rewrite Ht, Hks in *. simpl in *.
  destruct (pytype_eq_dec (type_of key) (type_of key)); [|contradiction].
  destruct (find_loop (Some (type_of key)) ks t) as [n|] eqn:F; [|now split].
  destruct (find_loop_value _ _ _ _ F) as (v & Hv). rewrite Hv in Hs. discriminate.
Qed.

Lemma reachable_of_type t K :
  reachable t -> type t = None \/ type t = Some K -> supported K -> of_type K t.
Proof.
  intros R Ht Sup. destruct (reachable_wf _ R) as [->|(K' & _ & W)]; [now left|].
  right. rewrite (wf_type _ _ W) in Ht. destruct Ht as [Ht|Ht]; [discriminate|].
  now injection Ht as <-.
Qed.

(** X3: deleting a key that is present does not raise; afterwards the key
    is absent ([key in t] is false, [t[key]] raises [KeyError]), every
    other key gets the answer it got before, and no dict of the trie has
    lost or gained an entry: the nodes of the key stay. *)
Theorem delete_present t key v :
  reachable t -> getitem t key = Ok (Some v) ->
  exists t',
    delitem t key = Ok t'
    /\ contains t' key = Ok false
    /\ getitem t' key = Raise KeyError
    /\ (forall key', key' <> key -> getitem t' key' = getitem t key')
    /\ (forall path, keys_at path t' = keys_at path t).
Proof.
  intros R G. pose proof (getitem_type _ _ _ G) as Ht.
  destruct (reachable_typed _ _ R Ht) as [Sup W].
  assert (Ho : of_type (type_of key) t) by now right.
  destruct (setitem_stored _ t key None Sup Ho eq_refl) as (t' & Hset & W' & Hs).
  assert (Hd : delitem t key = Ok t') by (unfold delitem; now rewrite G).
  exists t'. split; [exact Hd|].
  pose proof (Hs key) as Hk.
  destruct (pykey_eq_dec key key) as [_|N]; [|contradiction].
  destruct (stored_None_outcomes t' key Sup (wf_type _ _ W') Hk) as [Hc Hg].
  split; [exact Hc|]. split; [exact Hg|]. split.
  - intros key' N. apply getitem_ext.
    + now rewrite (wf_type _ _ W'), Ht.
    + rewrite Hs. destruct (pykey_eq_dec key key') as [E|_]; [congruence | reflexivity].
  - intros path.
    pose proof (apply_op_keys_at _ t (OpDel key) path Sup Ho eq_refl) as Hp.
    unfold apply_op in Hp. now rewrite Hd in Hp.
Qed.

(** X4: an assignment with a key of the type of the trie (or of either
    key type, on [Trie()]) does not raise and changes what is stored for
    this key only; assigning [None] leaves the key absent. *)
Theorem assign_changes_one_key t key x :
  reachable t -> supported (type_of key) ->
  type t = None \/ type t = Some (type_of key) ->
  exists t',
    setitem t key x = Ok t'
    /\ type t' = Some (type_of key)
    /\ forall key', stored t' key' = if pykey_eq_dec key key' then x else stored t key'.
Proof.
  intros R Sup Ht. pose proof (reachable_of_type t _ R Ht Sup) as Ho.
  destruct (setitem_stored _ t key x Sup Ho eq_refl) as (t' & Hset & W' & Hs).
  exists t'. split; [exact Hset|]. split; [apply (wf_type _ _ W') | exact Hs].
Qed.

(** X5: an assignment never removes or reorders an entry of a dict of the
    trie: after it, the keys of the dict at the end of any path are the
    ones before, followed by at most one new key. *)
Theorem assign_only_appends t key x path :
  reachable t -> supported (type_of key) ->
  type t = None \/ type t = Some (type_of key) ->
  exists t' added,
    setitem t key x = Ok t'
    /\ keys_at path t' = keys_at path t ++ added
    /\ length added <= 1.
Proof.
  intros R Sup Ht. pose proof (reachable_of_type t _ R Ht Sup) as Ho.
  destruct (setitem_of_type _ t key x Sup Ho eq_refl) as [Hset _].
  destruct (path_of_key _ key Sup eq_refl) as (_ & Fp & _).
  assert (Hw : forall ty, keys_at path (with_type t ty) = keys_at path t)
    by (intros ty; destruct path; reflexivity).
  eexists.
  exists (match child_after path (path_of (type_of key) key) with
          | Some a => if in_dec atom_eq_dec a (keys_at path t) then [] else [a]
          | None => []
          end).
  split; [exact Hset|].
  rewrite keys_at_setitem_loop, (wrap_atom_str _ _ Sup Fp), Hw.
  destruct (child_after path (path_of (type_of key) key)) as [a|].
  - destruct (in_dec atom_eq_dec a (keys_at path t)).
    + rewrite app_nil_r. split; [reflexivity | simpl; lia].
    + split; [reflexivity | simpl; lia].
  - rewrite app_nil_r. split; [reflexivity | simpl; lia].
Qed.

(** X6: once the root has a child, no assignment and no deletion changes
    the type of the trie or empties the root. *)
Theorem type_fixed_once_child t key x t' :
  children t <> [] ->
  setitem t key x = Ok t' \/ delitem t key = Ok t' ->
  type t' = type t /\ children t' <> [].
Proof.
  intros Hc H.
  assert (Hset : exists y, setitem t key y = Ok t').
  { destruct H as [H|H]; [eauto|]. apply delitem_inv in H. eauto. }
  destruct Hset as (y & Hset). clear H. unfold setitem in Hset.
  destruct (children t) as [|kc cs] eqn:Ec; [contradiction|].
  assert (exists ks, t' = setitem_loop (type t) ks y t) as (ks & ->).
  { destruct (type t) as [ty|] eqn:Ety.
    - destruct (pytype_eq_dec (type_of key) ty); [|discriminate]. simpl in Hset.
      destruct (items key) as [ks|]; [|discriminate]. simpl in Hset.
      injection Hset as <-. exists ks. now rewrite Ety.
    - simpl in Hset. destruct (items key) as [ks|]; [|discriminate].
      simpl in Hset. injection Hset as <-. exists ks. now rewrite Ety. }
  split; [apply setitem_loop_type|].
  destruct ks as [|c ks]; [simpl; now rewrite Ec|].
  rewrite setitem_loop_children, Ec. destruct kc as [k n]. simpl.
  destruct (atom_eq_dec k (wrap (type t) c)); discriminate.
Qed.

(** X7: on a trie a program can hold, an assignment raises exactly when the
    key is neither a string nor a tuple, or when the root has a child and
    the type of the trie is not the type of the key; it then raises
    [TypeError]. *)
Theorem assign_raises_iff t key x :
  reachable t ->
  (supported (type_of key) /\ (children t = [] \/ type t = Some (type_of key)) ->
   exists t', setitem t key x = Ok t')
  /\ (~ (supported (type_of key) /\ (children t = [] \/ type t = Some (type_of key))) ->
      setitem t key x = Raise TypeError).
Proof.
  intros R. split.
  - intros [Sup Ht]. destruct (supported_items key Sup) as (ks & Hks).
    unfold setitem. destruct (children t) as [|kc cs] eqn:Ec.
    + destruct Sup as [E|E]; rewrite E; simpl; rewrite Hks; simpl; eauto.
    + destruct Ht as [Ht|Ht]; [discriminate|]. rewrite Ht.
      destruct (pytype_eq_dec (type_of key) (type_of key)); [|contradiction].
      simpl. rewrite Hks. simpl. eauto.
  - intros N. unfold setitem. destruct (children t) as [|kc cs] eqn:Ec.
    + destruct key; simpl; try reflexivity; exfalso; apply N;
        (split; [|now left]); [now left | now right].
    + destruct (reachable_wf _ R) as [->|(K & Sup & W)]; [discriminate|].
      rewrite (wf_type _ _ W) in *.
      destruct (pytype_eq_dec (type_of key) K) as [E|_]; [|reflexivity].
      exfalso. apply N. subst K. split; [assumption | now right].
Qed.

End AssignFacts.

Lemma delete_present_sample :
  exists t',
    delitem sample_trie (KStr bat) = Ok t'
    /\ contains t' (KStr bat) = Ok false
    /\ getitem t' (KStr bat) = Raise KeyError
    /\ (forall key', key' <> KStr bat -> getitem t' key' = getitem sample_trie key')
    /\ (forall path, keys_at path t' = keys_at path sample_trie).
Proof.
  apply (delete_present sample_trie (KStr bat) 2%Z).
  - exact sample_trie_reachable.
  - reflexivity.
Defined.

Lemma assign_changes_one_key_sample :
  exists t',
    setitem sample_trie (KStr bar) (Some 5%Z) = Ok t'
    /\ type t' = Some (type_of (KStr bar))
    /\ forall key', stored t' key'
                    = if pykey_eq_dec (KStr bar) key' then Some 5%Z
                      else stored sample_trie key'.
Proof.
  apply (assign_changes_one_key sample_trie (KStr bar) (Some 5%Z)).
  - exact sample_trie_reachable.
  - left. reflexivity.
  - right. reflexivity.
Defined.

Lemma assign_only_appends_sample :
  exists t' added,
    setitem sample_trie (KStr bark) (Some 5%Z) = Ok t'
    /\ keys_at [] t' = keys_at [] sample_trie ++ added
    /\ length added <= 1.
Proof.
  apply (assign_only_appends sample_trie (KStr bark) (Some 5%Z) []).
  - exact sample_trie_reachable.
  - left. reflexivity.
  - right. reflexivity.
Defined.

Lemma type_fixed_once_child_sample :
  type sample_after_set = type sample_trie /\ children sample_after_set <> [].
Proof.
  apply (type_fixed_once_child sample_trie (KStr bar) (Some 5%Z) sample_after_set).
  - vm_compute. discriminate.
  - left. reflexivity.
Defined.

Lemma assign_raises_iff_sample :
  (supported (type_of (KStr bar))
   /\ (children sample_trie = [] \/ type sample_trie = Some (type_of (KStr bar))) ->
   exists t', setitem sample_trie (KStr bar) (Some 5%Z) = Ok t')
  /\ (~ (supported (type_of (KStr bar))
         /\ (children sample_trie = []
             \/ type sample_trie = Some (type_of (KStr bar)))) ->
      setitem sample_trie (KStr bar) (Some 5%Z) = Raise TypeError).
Proof.
  apply (assign_raises_iff sample_trie (KStr bar) (Some 5%Z)).
  exact sample_trie_reachable.
Defined.

(** * Further properties of the corpus builders *)

Lemma stored_Some {V : Type} (t : Trie V) key v :
  stored t key = Some v <-> getitem t key = Ok (Some v).
Proof.
  unfold stored. destruct (getitem t key) as [[x|]|e]; split; congruence.
Qed.

Lemma contains_stored {V : Type} K (t : Trie V) key :
  supported K -> of_type K t -> type_of key = K ->
  contains t key
  = Ok (match stored t key with Some _ => true | None => false end).
Proof.
  intros Sup Ht Hk. subst K. destruct (supported_items key Sup) as (ks & Hks).
  destruct Ht as [->|W].
  - unfold stored, contains, find. rewrite Hks. simpl.
    destruct ks; reflexivity.
  - pose proof (wf_type _ _ W) as Hty.
    unfold stored, contains, getitem, find. rewrite Hty, Hks. simpl.
    destruct (pytype_eq_dec (type_of key) (type_of key)); [|contradiction].
    destruct (find_loop (Some (type_of key)) ks t) as [n|] eqn:F; [|reflexivity].
    destruct (find_loop_value _ _ _ _ F) as (v & Hv). now rewrite Hv.
Qed.

(** The count stored for a key, 0 when there is none. *)
Lemma count_key_stored K (t : Trie Z) key :
  supported K -> of_type K t -> type_of key = K ->
  exists t', count_key t key = Ok t' /\ wf K t'
    /\ forall key',
         stored t' key'
         = if pykey_eq_dec key key'
           then Some (match stored t key with Some n => n + 1 | None => 1 end)%Z
           else stored t key'.
Proof.
  intros Sup Ht Hk. unfold count_key.
  rewrite (contains_stored K t key Sup Ht Hk). simpl.
  destruct (stored t key) as [n|] eqn:Hs.
  - apply stored_Some in Hs. rewrite Hs. simpl.
    apply (setitem_stored K t key _ Sup Ht Hk).
  - apply (setitem_stored K t key _ Sup Ht Hk).
Qed.

Lemma count_keys_stored K keys (t : Trie Z) :
  supported K -> of_type K t -> Forall (fun key => type_of key = K) keys ->
  exists t', count_keys t keys = Ok t' /\ of_type K t'
    /\ forall key,
         stored t' key
         = if count_occ pykey_eq_dec keys key =? 0 then stored t key
           else Some (match stored t key with Some n => n | None => 0 end
                      + Z.of_nat (count_occ pykey_eq_dec keys key))%Z.
Proof.
  intros Sup. revert t. induction keys as [|k keys IH]; intros t Ht F.
  - exists t. split; [reflexivity|]. split; [assumption|]. reflexivity.
  - inversion F as [|? ? Hk F']; subst.
    destruct (count_key_stored _ t k Sup Ht eq_refl) as (t1 & H1 & W1 & S1).
    destruct (IH t1 (or_intror W1) F') as (t' & H' & Ht' & S').
    exists t'. split; [simpl; now rewrite H1|]. split; [assumption|].
    intros key. rewrite S', S1. simpl count_occ.
    destruct (pykey_eq_dec k key) as [E|N].
    + subst key.
      destruct (count_occ pykey_eq_dec keys k) as [|c]; simpl Nat.eqb; cbv iota;
        destruct (stored t k); f_equal; lia.
    + reflexivity.
Qed.

Lemma count_occ_map_inj {A B : Type} (decA : forall a b : A, {a = b} + {a <> b})
    (decB : forall a b : B, {a = b} + {a <> b}) (f : A -> B) (l : list A) (x : A) :
  (forall a b, f a = f b -> a = b) ->
  count_occ decB (map f l) (f x) = count_occ decA l x.
Proof.
  intros Inj. induction l as [|y l IH]; simpl; [reflexivity|].
  destruct (decB (f y) (f x)) as [E|N], (decA y x) as [E'|N']; try congruence.
  apply Inj in E. contradiction.
Qed.

Lemma count_occ_map_miss {A B : Type} (decB : forall a b : B, {a = b} + {a <> b})
    (f : A -> B) (l : list A) (y : B) :
  (forall a, f a <> y) -> count_occ decB (map f l) y = 0.
Proof.
  intros H. induction l as [|x l IH]; simpl; [reflexivity|].
  destruct (decB (f x) y) as [E|_]; [now apply H in E | exact IH].
Qed.

(** What both builders have in common: for keys of one type, the trie
    stores for each key the number of times it occurs, and iterating it
    yields each key that occurs, once, with this number. *)
Lemma count_keys_counts K keys :
  supported K -> Forall (fun key => type_of key = K) keys ->
  exists t l,
    count_keys (Trie_init None None) keys = Ok t
    /\ iter t = Ok l
    /\ NoDup (map fst l)
    /\ (forall key, In key keys ->
          getitem t key = Ok (Some (Z.of_nat (count_occ pykey_eq_dec keys key))))
    /\ (forall key, type_of key = K -> ~ In key keys -> contains t key = Ok false)
    /\ (forall key n, In (key, n) l <->
          In key keys /\ n = Z.of_nat (count_occ pykey_eq_dec keys key)).
Proof.
  intros Sup F.
  destruct (count_keys_stored K keys (Trie_init None None) Sup (or_introl eq_refl) F)
    as (t & Ht & Ho & Hs).
  change (stored (Trie_init None None)) with (fun _ : pykey => @None Z) in Hs.
  assert (R : reachable t) by (apply (count_keys_reachable keys _ _ reach_init Ht)).
  destruct (iter_getitem _ R) as (l & Hl & ND & Hin).
  assert (Hpos : forall key, In key keys ->
            stored t key = Some (Z.of_nat (count_occ pykey_eq_dec keys key))).
  { intros key I. rewrite Hs. apply (count_occ_In pykey_eq_dec) in I.
    destruct (count_occ pykey_eq_dec keys key =? 0) eqn:E.
    - apply Nat.eqb_eq in E. lia.
    - reflexivity. }
  assert (Hzero : forall key, ~ In key keys -> stored t key = None).
  { intros key NI. rewrite Hs. apply (count_occ_not_In pykey_eq_dec) in NI.
    now rewrite NI. }
  exists t, l. split; [exact Ht|]. split; [exact Hl|]. split; [exact ND|].
  split; [|split].
  - intros key I. apply stored_Some. now apply Hpos.
  - intros key Hk NI. rewrite (contains_stored K t key Sup Ho Hk).
    now rewrite (Hzero key NI).
  - intros key n. rewrite Hin, <- stored_Some. split.
    + intros H. destruct (in_dec pykey_eq_dec key keys) as [I|NI].
      * split; [assumption|]. rewrite (Hpos key I) in H. congruence.
      * rewrite (Hzero key NI) in H. discriminate.
    + intros [I ->]. now apply Hpos.
Qed.

(** X8: [make_word_trie] does not raise; in the trie it returns, each word
    of the text has as value the number of times it occurs, no other
    string is a key, and iterating yields each word once with its count. *)
Theorem make_word_trie_counts (sentences : list (list str)) :
  exists t l,
    make_word_trie sentences = Ok t
    /\ iter t = Ok l
    /\ NoDup (map fst l)
    /\ (forall word, In word (concat sentences) ->
          getitem t (KStr word)
          = Ok (Some (Z.of_nat (count_occ str_eq_dec (concat sentences) word))))
    /\ (forall word, ~ In word (concat sentences) -> contains t (KStr word) = Ok false)
    /\ (forall key n, In (key, n) l <->
          exists word, key = KStr word /\ In word (concat sentences)
                       /\ n = Z.of_nat (count_occ str_eq_dec (concat sentences) word)).
Proof.
  set (words := concat sentences).
  assert (Inj : forall a b : str, KStr a = KStr b -> a = b) by (intros a b [=]; assumption).
  destruct (count_keys_counts TStr (map KStr words)) as (t & l & Ht & Hl & ND & Hp & Hz & Hin).
  { now left. }
  { apply Forall_forall. intros key I. apply in_map_iff in I.
    now destruct I as (w & <- & _). }
  exists t, l. split; [exact Ht|]. split; [exact Hl|]. split; [exact ND|].
  split; [|split].
  - intros word I.
    rewrite <- (count_occ_map_inj str_eq_dec pykey_eq_dec KStr words word Inj).
    apply Hp. now apply in_map.
  - intros word NI. apply Hz; [reflexivity|]. intros I. apply in_map_iff in I.
    destruct I as (w & E & I). apply Inj in E. now subst w.
  - intros key n. rewrite Hin. split.
    + intros [I ->]. apply in_map_iff in I. destruct I as (w & <- & I).
      exists w. split; [reflexivity|]. split; [assumption|].
      now rewrite (count_occ_map_inj str_eq_dec pykey_eq_dec KStr words w Inj).
    + intros (w & -> & I & ->). split; [now apply in_map|].
      now rewrite (count_occ_map_inj str_eq_dec pykey_eq_dec KStr words w Inj).
Qed.

(** X9: [make_phrase_trie] does not raise; in the trie it returns, each
    sentence of the text, as the tuple of its words, has as value the
    number of times it occurs, no other tuple is a key, and iterating
    yields each sentence once with its count. *)
Theorem make_phrase_trie_counts (sentences : list (list str)) :
  exists t l,
    make_phrase_trie sentences = Ok t
    /\ iter t = Ok l
    /\ NoDup (map fst l)
    /\ (forall sentence, In sentence sentences ->
          getitem t (KTuple sentence)
          = Ok (Some (Z.of_nat
                        (count_occ (list_eq_dec str_eq_dec) sentences sentence))))
    /\ (forall sentence, ~ In sentence sentences ->
          contains t (KTuple sentence) = Ok false)
    /\ (forall key n, In (key, n) l <->
          exists sentence,
            key = KTuple sentence /\ In sentence sentences
            /\ n = Z.of_nat (count_occ (list_eq_dec str_eq_dec) sentences sentence)).
Proof.
  assert (Inj : forall a b : list str, KTuple a = KTuple b -> a = b)
    by (intros a b [=]; assumption).
  destruct (count_keys_counts TTuple (map KTuple sentences))
    as (t & l & Ht & Hl & ND & Hp & Hz & Hin).
  { now right. }
  { apply Forall_forall. intros key I. apply in_map_iff in I.
    now destruct I as (w & <- & _). }
  exists t, l. split; [exact Ht|]. split; [exact Hl|]. split; [exact ND|].
  split; [|split].
  - intros sentence I.
    rewrite <- (count_occ_map_inj (list_eq_dec str_eq_dec) pykey_eq_dec
                  KTuple sentences sentence Inj).
    apply Hp. now apply in_map.
  - intros sentence NI. apply Hz; [reflexivity|]. intros I. apply in_map_iff in I.
    destruct I as (w & E & I). apply Inj in E. now subst w.
  - intros key n. rewrite Hin. split.
    + intros [I ->]. apply in_map_iff in I. destruct I as (w & <- & I).
      exists w. split; [reflexivity|]. split; [assumption|].
      now rewrite (count_occ_map_inj (list_eq_dec str_eq_dec) pykey_eq_dec
                     KTuple sentences w Inj).
    + intros (w & -> & I & ->). split; [now apply in_map|].
      now rewrite (count_occ_map_inj (list_eq_dec str_eq_dec) pykey_eq_dec
                     KTuple sentences w Inj).
Qed.

(** * Further properties of iteration *)

(** X10: iterating a trie a program can hold does not raise and yields
    each key once; it yields [(key, v)] exactly when [t[key]] is [v]. *)
Theorem iteration_agrees_with_lookup {V : Type} (t : Trie V) :
  reachable t ->
  exists l, iter t = Ok l
            /\ NoDup (map fst l)
            /\ forall key v, In (key, v) l <-> getitem t key = Ok (Some v).
Proof. apply iter_getitem. Qed.

Lemma iteration_agrees_with_lookup_sample :
  exists l, iter sample_trie = Ok l
            /\ NoDup (map fst l)
            /\ forall key v, In (key, v) l <-> getitem sample_trie key = Ok (Some v).
Proof. apply (iteration_agrees_with_lookup sample_trie). exact sample_trie_reachable. Defined.

(** X11: after assignments and deletions whose keys are all strings, or
    all tuples, iterating the trie yields exactly the keys assigned and not
    deleted since, each once, with the value last assigned. *)
Theorem iteration_after_history {V : Type} (K : pytype) (ops : list (op V)) :
  supported K ->
  Forall (fun o => type_of (op_key o) = K) ops ->
  exists l, iter (run ops) = Ok l
            /\ NoDup (map fst l)
            /\ forall key v, In (key, v) l <-> latest ops key = Some v.
Proof. apply iter_after_history. Qed.

Lemma iteration_after_history_sample :
  exists l, iter (run sample_history) = Ok l
            /\ NoDup (map fst l)
            /\ forall key v, In (key, v) l <-> latest sample_history key = Some v.
Proof.
  apply (iteration_after_history TStr sample_history).
  - left. reflexivity.
  - repeat constructor.
Defined.

(** X12: after such a history, iteration is depth first: a key comes
    before the keys that continue it, and of two keys that part after a
    common beginning, the one whose next item was first assigned under
    this beginning comes first. *)
Theorem iteration_order_after_history {V : Type} (K : pytype) (ops : list (op V)) :
  supported K ->
  Forall (fun o => type_of (op_key o) = K) ops ->
  exists l, iter (run ops) = Ok l
            /\ ForallOrdPairs
                 (fun k1 k2 => path_before (first_atoms K ops)
                                 (path_of K k1) (path_of K k2))
                 (map fst l).
Proof. apply iter_order_after_history. Qed.

Lemma iteration_order_after_history_sample :
  exists l, iter (run sample_history) = Ok l
            /\ ForallOrdPairs
                 (fun k1 k2 => path_before (first_atoms TStr sample_history)
                                 (path_of TStr k1) (path_of TStr k2))
                 (map fst l).
Proof.
  apply (iteration_order_after_history TStr sample_history).
  - left. reflexivity.
  - repeat constructor.
Defined.

(** * Further properties of the queries *)

Lemma slice_to_map {A B : Type} (f : A -> B) (n : Z) (l : list A) :
  map f (slice_to n l) = slice_to n (map f l).
Proof. unfold slice_to. rewrite length_map. now destruct (n <? 0)%Z; rewrite firstn_map. Qed.

(** X13: the completions for a count [n] are the first [n] of the
    completions without a count; a negative count [-n] does not raise but
    leaves out the last [n] of them. *)
Theorem autocomplete_cut (t : Trie Z) (prefix : pykey) :
  reachable t -> type t = Some (type_of prefix) ->
  exists full,
    autocomplete t prefix None = Ok full
    /\ (forall n : nat, autocomplete t prefix (Some (Z.of_nat n)) = Ok (firstn n full))
    /\ (forall n : nat,
          autocomplete t prefix (Some (- Z.of_nat (S n))%Z)
          = Ok (firstn (length full - S n) full)).
Proof.
  intros R Ht. destruct (reachable_typed _ _ R Ht) as [Sup W].
  destruct (find_completes_prefix_wf _ t prefix Sup W eq_refl) as (all & _ & Hf).
  unfold autocomplete. eexists. split; [rewrite Hf; reflexivity|].
  cbn [cut]. split.
  - intros n. rewrite Hf. cbn [bind cut]. rewrite slice_to_map. unfold slice_to.
    destruct (Z.of_nat n <? 0)%Z eqn:E; [apply Z.ltb_lt in E; lia|].
    now rewrite Nat2Z.id.
  - intros n. rewrite Hf. cbn [bind cut]. rewrite slice_to_map. unfold slice_to.
    destruct (- Z.of_nat (S n) <? 0)%Z eqn:E; [|apply Z.ltb_ge in E; lia].
    do 2 f_equal. lia.
Qed.

Lemma autocomplete_cut_sample :
  exists full,
    autocomplete sample_trie (KStr bar) None = Ok full
    /\ (forall n : nat,
          autocomplete sample_trie (KStr bar) (Some (Z.of_nat n)) = Ok (firstn n full))
    /\ (forall n : nat,
          autocomplete sample_trie (KStr bar) (Some (- Z.of_nat (S n))%Z)
          = Ok (firstn (length full - S n) full)).
Proof.
  apply (autocomplete_cut sample_trie (KStr bar)).
  - exact sample_trie_reachable.
  - reflexivity.
Defined.

(** X14: on a trie a program can hold, [autocomplete] raises exactly when
    the type of the prefix is not the type of the trie, and then raises
    [TypeError]; [autocorrect] raises [TypeError] then, too. *)
Theorem autocomplete_raises_iff (h : hash_seed) (t : Trie Z) (prefix : pykey)
    (max_count : option Z) :
  reachable t ->
  (type t = Some (type_of prefix) ->
   exists keys, autocomplete t prefix max_count = Ok keys)
  /\ (type t <> Some (type_of prefix) ->
      autocomplete t prefix max_count = Raise TypeError
      /\ autocorrect h t prefix max_count = Raise TypeError).
Proof.
  intros R. split.
  - intros Ht. destruct (reachable_typed _ _ R Ht) as [Sup W].
    destruct (find_completes_prefix_wf _ t prefix Sup W eq_refl) as (all & _ & Hf).
    unfold autocomplete. rewrite Hf. simpl. eauto.
  - intros N.
    assert (A : autocomplete t prefix max_count = Raise TypeError).
    { unfold autocomplete, find_completes_prefix.
      destruct (type t) as [ty|]; [|reflexivity].
      destruct (pytype_eq_dec (type_of prefix) ty); [congruence | reflexivity]. }
    split; [exact A|]. unfold autocorrect. now rewrite A.
Qed.

Lemma autocomplete_raises_iff_sample :
  (type sample_trie = Some (type_of (KTuple [bat])) ->
   exists keys, autocomplete sample_trie (KTuple [bat]) None = Ok keys)
  /\ (type sample_trie <> Some (type_of (KTuple [bat])) ->
      autocomplete sample_trie (KTuple [bat]) None = Raise TypeError
      /\ autocorrect seed_forward sample_trie (KTuple [bat]) None = Raise TypeError).
Proof.
  apply (autocomplete_raises_iff seed_forward sample_trie (KTuple [bat]) None).
  exact sample_trie_reachable.
Defined.

(** X15: on a trie of tuples, [autocorrect] returns the completions when
    their number is the count given, and otherwise raises [TypeError]:
    building the edits adds a string to a tuple. *)
Theorem autocorrect_on_tuples (h : hash_seed) (t : Trie Z) (ws : list str)
    (max_count : option Z) :
  reachable t -> type t = Some TTuple ->
  exists completions,
    autocomplete t (KTuple ws) max_count = Ok completions
    /\ autocorrect h t (KTuple ws) max_count
       = if match max_count with
            | Some n => (Z.of_nat (length completions) =? n)%Z
            | None => false
            end
         then Ok completions
         else Raise TypeError.
Proof.
  intros R Ht. destruct (reachable_typed _ _ R Ht) as [Sup W].
  destruct (find_completes_prefix_wf _ t (KTuple ws) Sup W eq_refl) as (all & _ & Hf).
  eexists. split; [unfold autocomplete; rewrite Hf; reflexivity|].
  unfold autocorrect, autocomplete. rewrite Hf. cbn [bind].
  now destruct (match max_count with
                | Some n => (Z.of_nat (length _) =? n)%Z
                | None => false
                end).
Qed.

Lemma sample_phrase_trie_reachable : reachable sample_phrase_trie.
Proof.
  apply (make_phrase_trie_reachable [[bat; bar]; [bat; bar]; [bark]]). reflexivity.
Qed.

Lemma autocorrect_on_tuples_sample :
  exists completions,
    autocomplete sample_phrase_trie (KTuple [bat]) (Some 1%Z) = Ok completions
    /\ autocorrect seed_forward sample_phrase_trie (KTuple [bat]) (Some 1%Z)
       = if (Z.of_nat (length completions) =? 1)%Z then Ok completions
         else Raise TypeError.
Proof.
  apply (autocorrect_on_tuples seed_forward sample_phrase_trie [bat] (Some 1%Z)).
  - exact sample_phrase_trie_reachable.
  - reflexivity.
Defined.

(** ** The wildcard filter on particular patterns *)

Lemma filter_ext_true {A : Type} (f g : A -> bool) (l : list A) :
  (forall x, In x l -> (f x = true <-> g x = true)) -> filter f l = filter g l.
Proof.
  intros H. apply filter_ext_in. intros x I. specialize (H x I).
  destruct (f x), (g x); try reflexivity; destruct H as [H1 H2].
  - symmetry. now apply H1.
  - now apply H2.
Qed.

(** [word_filter] filters the iteration by a test that decides matching. *)
Lemma word_filter_keep (t : Trie Z) :
  reachable t ->
  exists all,
    iter t = Ok all
    /\ NoDup (map fst all)
    /\ (forall key v, In (key, v) all <-> getitem t key = Ok (Some v))
    /\ forall pattern, exists keep,
         word_filter t pattern = Ok (filter keep all)
         /\ forall kv, In kv all -> (keep kv = true <-> key_matches pattern (fst kv)).
Proof.
  intros R. destruct (iter_getitem _ R) as (all & Hall & ND & Hin).
  exists all. split; [exact Hall|]. split; [exact ND|]. split; [exact Hin|].
  intros pattern.
  set (keep := fun kv : pykey * Z =>
                 match is_match (fst kv) pattern 0 0 with
                 | Ok b => b
                 | Raise _ => false
                 end).
  assert (Hitems : forall kv, In kv all -> exists word, items (fst kv) = Ok word).
  { intros [k v] I. apply Hin in I. pose proof (getitem_type _ _ _ I) as Ht.
    destruct (reachable_typed _ _ R Ht) as [Sup _]. now apply supported_items. }
  exists keep. split.
  - unfold word_filter. rewrite Hall. simpl. apply filter_res_Ok.
    intros kv I. destruct (Hitems kv I) as (word & Hw).
    destruct (is_match_glob (fst kv) pattern word Hw) as (b & Hb & _).
    unfold keep. now rewrite Hb.
  - intros kv I. destruct (Hitems kv I) as (word & Hw).
    destruct (is_match_glob (fst kv) pattern word Hw) as (b & Hb & Hiff).
    unfold keep. now rewrite Hb.
Qed.

Lemma key_matches_star key word :
  items key = Ok word -> key_matches [star] key.
Proof.
  intros H. exists word. split; [assumption|]. simpl.
  destruct (ascii_dec star star); [|contradiction].
  exists word, []. now rewrite app_nil_r.
Qed.

Lemma key_matches_empty key :
  key_matches [] key <-> is_empty_key key = true.
Proof.
  unfold key_matches. simpl. split.
  - intros (word & H & ->). destruct key as [[|c s]|[|w ws]|]; simpl in H;
      try discriminate; reflexivity.
  - intros H. exists []. destruct key as [[|c s]|[|w ws]|]; try discriminate;
      now split.
Qed.

(** X16: the pattern [*] keeps every pair of the iteration, in its order,
    and the empty pattern keeps the pair of the empty key only. *)
Theorem word_filter_star_and_empty (t : Trie Z) :
  reachable t ->
  exists all,
    iter t = Ok all
    /\ word_filter t [star] = Ok all
    /\ word_filter t [] = Ok (filter (fun kv => is_empty_key (fst kv)) all).
Proof.
  intros R. destruct (word_filter_keep t R) as (all & Hall & _ & Hin & Hk).
  assert (Hitems : forall kv, In kv all -> exists word, items (fst kv) = Ok word).
  { intros [k v] I. apply Hin in I. pose proof (getitem_type _ _ _ I) as Ht.
    destruct (reachable_typed _ _ R Ht) as [Sup _]. now apply supported_items. }
  exists all. split; [exact Hall|]. split.
  - destruct (Hk [star]) as (keep & -> & Hkeep). f_equal.
    rewrite <- (filter_true all) at 2. apply filter_ext_true.
    intros kv I. rewrite (Hkeep kv I). split; [reflexivity|]. intros _.
    destruct (Hitems kv I) as (word & Hw). now apply (key_matches_star _ word).
  - destruct (Hk []) as (keep & -> & Hkeep). f_equal.
    apply filter_ext_true. intros kv I.
    now rewrite (Hkeep kv I), key_matches_empty.
Qed.

Lemma word_filter_star_and_empty_sample :
  exists all,
    iter sample_trie = Ok all
    /\ word_filter sample_trie [star] = Ok all
    /\ word_filter sample_trie [] = Ok (filter (fun kv => is_empty_key (fst kv)) all).
Proof. apply (word_filter_star_and_empty sample_trie). exact sample_trie_reachable. Defined.

Lemma glob_plain pattern word :
  plain pattern -> (glob pattern word <-> word = map (fun c => [c]) pattern).
Proof.
  revert word. induction pattern as [|p pattern IH]; intros word [Hs Hq]; simpl.
  - tauto.
  - destruct (ascii_dec p star) as [->|N]; [exfalso; apply Hs; now left|].
    assert (Hp : plain pattern)
      by (split; intros I; [apply Hs | apply Hq]; now right).
    split.
    + intros (w & rest & -> & [-> | ->] & G).
      * exfalso. apply Hq. now left.
      * f_equal. now apply IH.
    + intros ->. exists [p], (map (fun c => [c]) pattern).
      split; [reflexivity|]. split; [now right | now apply IH].
Qed.

Lemma map_singleton_inj {A : Type} (a b : list A) :
  map (fun c => [c]) a = map (fun c => [c]) b -> a = b.
Proof.
  revert b. induction a as [|x a IH]; intros [|y b] E; simpl in E;
    try discriminate; [reflexivity|].
  injection E as -> E. f_equal. now apply IH.
Qed.

(** X17: on a trie of strings, a pattern without [*] and [?] is a lookup:
    [word_filter] returns the pair of the pattern itself when it is a key
    of the trie, and nothing otherwise. *)
Theorem word_filter_plain (t : Trie Z) (pattern : str) :
  reachable t -> type t = Some TStr -> plain pattern ->
  exists matched,
    word_filter t pattern = Ok matched
    /\ length matched <= 1
    /\ forall key v,
         In (key, v) matched <->
         key = KStr pattern /\ getitem t (KStr pattern) = Ok (Some v).
Proof.
  intros R Ht Hp. destruct (word_filter_keep t R) as (all & Hall & ND & Hin & Hk).
  destruct (Hk pattern) as (keep & Hw & Hkeep).
  assert (Hm : forall key v, In (key, v) (filter keep all) <->
                 key = KStr pattern /\ getitem t (KStr pattern) = Ok (Some v)).
  { intros key v. rewrite filter_In. split.
    - intros [I Hkv]. apply (Hkeep _ I) in Hkv. simpl in Hkv.
      destruct Hkv as (word & Hitems & G). apply (glob_plain _ _ Hp) in G. subst word.
      apply Hin in I. pose proof (getitem_type _ _ _ I) as Hty. rewrite Ht in Hty.
      destruct key as [s|ws|]; try discriminate.
      simpl in Hitems. injection Hitems as E. apply map_singleton_inj in E.
      subst s. now split.
    - intros [-> G]. apply Hin in G. split; [assumption|].
      apply (Hkeep _ G). simpl. exists (map (fun c => [c]) pattern).
      split; [reflexivity | now apply glob_plain]. }
  exists (filter keep all). split; [exact Hw|]. split; [|exact Hm].
  assert (NDm : NoDup (map fst (filter keep all))) by now apply NoDup_map_filter.
  destruct (filter keep all) as [|[k1 v1] [|[k2 v2] rest]]; simpl; try lia.
  exfalso. destruct (proj1 (Hm k1 v1) (or_introl eq_refl)) as [-> _].
  destruct (proj1 (Hm k2 v2) (or_intror (or_introl eq_refl))) as [-> _].
  inversion NDm as [|? ? NI _]. apply NI. now left.
Qed.

Lemma word_filter_plain_sample :
  exists matched,
    word_filter sample_trie bat = Ok matched
    /\ length matched <= 1
    /\ forall key v,
         In (key, v) matched <->
         key = KStr bat /\ getitem sample_trie (KStr bat) = Ok (Some v).
Proof.
  apply (word_filter_plain sample_trie bat).
  - exact sample_trie_reachable.
  - reflexivity.
  - split; vm_compute; intuition discriminate.
Defined.
